(** * BezierNi: quantized leaf blocks for curve primitives

    A shallow embedding of [kernels/geometry/bezierNi.h]: the
    count-dependent block layout, the block and byte counts of a leaf,
    the aligned-space solver, the quantizer and the block filler.

    Conventions.  [size_t] and [uint64_t] values are integers of [Z] with
    the wrap-around modulo [2^64] written out.  Single-precision values
    are modelled by real numbers: [floor], [ceil], [trunc], [clamp] and
    the comparisons of the source are exact on finite floats; the
    arithmetic of the solver is taken exact, and infinities and NaN are
    not represented.  The constants have the values of the literals of
    the source: [1E-18f], [1E-18] and [sqrt(3.0f)] are the binary32 and
    binary64 numbers they denote, not [10^-18] and the square root of 3.
    The one product whose rounding a property of the quantizer depends
    on, [126.0f * c], is a parameter of the block filler, and the
    binary32 format itself is at hand in [Binary32] to run that product
    on actual floats.  The block filler comes without and with the
    assertions of the source, as [fill] and [fill_checked]. *)

From Stdlib Require Import ZArith Lia List Reals Lra Permutation.
From Stdlib Require Import Floats.SpecFloat.
From stdpp Require Import base option list gmap.

Open Scope Z_scope.

(** ** Machine integers *)

Definition wrap64 (z : Z) : Z := z mod 2 ^ 64.

(** Two's-complement reading of the low [w] bits of [z]. *)
Definition wrap_signed (w : Z) (z : Z) : Z :=
  (z + 2 ^ (w - 1)) mod 2 ^ w - 2 ^ (w - 1).

Definition to_short (z : Z) : Z := wrap_signed 16 z.
Definition to_char (z : Z) : Z := wrap_signed 8 z.
Definition to_uchar (z : Z) : Z := z mod 2 ^ 8.

(** ** Layout codec

    The accessors of the source return [(char* )this + offset]; [this] is
    the base address of the block.  The argument [N] is the primitive
    count of the block. *)

Module Layout.

Definition count_ptr (this : Z) : Z := this.
Definition geomID (this N : Z) : Z := this + 1.
Definition primID (this N : Z) : Z := this + 5.
Definition bounds_vx_x (this N : Z) : Z := this + 5 + 4 * N.
Definition bounds_vx_y (this N : Z) : Z := this + 5 + 5 * N.
Definition bounds_vx_z (this N : Z) : Z := this + 5 + 6 * N.
Definition bounds_vx_lower (this N : Z) : Z := this + 5 + 7 * N.
Definition bounds_vx_upper (this N : Z) : Z := this + 5 + 9 * N.
Definition bounds_vy_x (this N : Z) : Z := this + 5 + 11 * N.
Definition bounds_vy_y (this N : Z) : Z := this + 5 + 12 * N.
Definition bounds_vy_z (this N : Z) : Z := this + 5 + 13 * N.
Definition bounds_vy_lower (this N : Z) : Z := this + 5 + 14 * N.
Definition bounds_vy_upper (this N : Z) : Z := this + 5 + 16 * N.
Definition bounds_vz_x (this N : Z) : Z := this + 5 + 18 * N.
Definition bounds_vz_y (this N : Z) : Z := this + 5 + 19 * N.
Definition bounds_vz_z (this N : Z) : Z := this + 5 + 20 * N.
Definition bounds_vz_lower (this N : Z) : Z := this + 5 + 21 * N.
Definition bounds_vz_upper (this N : Z) : Z := this + 5 + 23 * N.
Definition offset (this N : Z) : Z := this + 5 + 25 * N.
Definition scale (this N : Z) : Z := this + 5 + 25 * N + 12.
Definition end_ (this N : Z) : Z := this + 5 + 25 * N + 16.

(** A field region: first byte and length in bytes. *)
Record region := Region { r_start : Z; r_len : Z }.

Definition r_stop (r : region) : Z := r_start r + r_len r.

(** The fields of a block of [N] primitives, in the order of the
    [Layout] comment of the source, with the element sizes of the pointer
    types the accessors return. *)
Definition fields (this N : Z) : list region :=
  [ Region (count_ptr this) 1;
    Region (geomID this N) 4;
    Region (primID this N) (4 * N);
    Region (bounds_vx_x this N) N;
    Region (bounds_vx_y this N) N;
    Region (bounds_vx_z this N) N;
    Region (bounds_vx_lower this N) (2 * N);
    Region (bounds_vx_upper this N) (2 * N);
    Region (bounds_vy_x this N) N;
    Region (bounds_vy_y this N) N;
    Region (bounds_vy_z this N) N;
    Region (bounds_vy_lower this N) (2 * N);
    Region (bounds_vy_upper this N) (2 * N);
    Region (bounds_vz_x this N) N;
    Region (bounds_vz_y this N) N;
    Region (bounds_vz_z this N) N;
    Region (bounds_vz_lower this N) (2 * N);
    Region (bounds_vz_upper this N) (2 * N);
    Region (offset this N) 12;
    Region (scale this N) 4 ].

Definition disjoint (a b : region) : Prop :=
  r_stop a <= r_start b \/ r_stop b <= r_start a.

(** Consecutive regions tile an interval: each one starts where the
    previous one stops. *)
Fixpoint tiles (from : Z) (l : list region) (to : Z) : Prop :=
  match l with
  | [] => from = to
  | r :: l' => r_start r = from /\ 0 < r_len r /\ tiles (r_stop r) l' to
  end.

End Layout.

(** ** Block and byte counts of a leaf *)

Section Blocks.

(** The template parameter: the capacity of a block. *)
Variable M : Z.

Definition sizeof_BezierNi : Z := 1 + (4 + 25 * M + 16).

Definition max_size : Z := M.

Definition blocks (N : Z) : Z := wrap64 (wrap64 (wrap64 (N + M) - 1) / M).

Definition bytes (N : Z) : Z :=
  let f := N / M in
  let r := N mod M in
  wrap64 (wrap64 (f * sizeof_BezierNi)
          + wrap64 ((if r =? 0 then 0 else 1) * wrap64 (21 + wrap64 (25 * r)))).

End Blocks.

(** ** Scalars and vectors *)

Definition wrap32 (z : Z) : Z := z mod 2 ^ 32.

(** Modelled from the spec: the scalar and vector helpers of the math
    headers ([floor], [ceil], [trunc], [clamp], [cross], [normalize],
    [sqr_length], [length], [transposed]), which are not
    under src/; they get their mathematical meaning on the reals. *)
Definition Zfloor (r : R) : Z := up r - 1.
Definition Zceil (r : R) : Z := - Zfloor (- r).
Definition Ztrunc (r : R) : Z := if Rlt_dec r 0 then Zceil r else Zfloor r.

Definition floor (r : R) : R := IZR (Zfloor r).
Definition ceil (r : R) : R := IZR (Zceil r).
Definition trunc (r : R) : R := IZR (Ztrunc r).
Definition clamp (x lo hi : R) : R := Rmax (Rmin x hi) lo.

Record Vec3fa := Vec3 { x : R; y : R; z : R }.

Record LinearSpace3fa := LinearSpace3 { vx : Vec3fa; vy : Vec3fa; vz : Vec3fa }.

Record BBox3fa := BBox3 { lower : Vec3fa; upper : Vec3fa }.

Section VectorOps.
Local Open Scope R_scope.

Definition zero3 : Vec3fa := Vec3 0 0 0.
Definition vsub (a b : Vec3fa) : Vec3fa := Vec3 (x a - x b) (y a - y b) (z a - z b).
Definition vscale (a : Vec3fa) (s : R) : Vec3fa := Vec3 (x a * s) (y a * s) (z a * s).
Definition dot (a b : Vec3fa) : R := x a * x b + y a * y b + z a * z b.
Definition cross (a b : Vec3fa) : Vec3fa :=
  Vec3 (y a * z b - z a * y b) (z a * x b - x a * z b) (x a * y b - y a * x b).
Definition sqr_length (a : Vec3fa) : R := dot a a.
Definition length3 (a : Vec3fa) : R := sqrt (dot a a).
Definition normalize (a : Vec3fa) : Vec3fa := vscale a (/ sqrt (dot a a)).
Definition vtrunc (a : Vec3fa) : Vec3fa := Vec3 (trunc (x a)) (trunc (y a)) (trunc (z a)).
Definition vmin (a b : Vec3fa) : Vec3fa := Vec3 (Rmin (x a) (x b)) (Rmin (y a) (y b)) (Rmin (z a) (z b)).
Definition vmax (a b : Vec3fa) : Vec3fa := Vec3 (Rmax (x a) (x b)) (Rmax (y a) (y b)) (Rmax (z a) (z b)).
Definition max3 (a b c : R) : R := Rmax a (Rmax b c).

Definition transposed (l : LinearSpace3fa) : LinearSpace3fa :=
  LinearSpace3 (Vec3 (x (vx l)) (x (vy l)) (x (vz l)))
               (Vec3 (y (vx l)) (y (vy l)) (y (vz l)))
               (Vec3 (z (vx l)) (z (vy l)) (z (vz l))).

Definition bbox_size (b : BBox3fa) : Vec3fa := vsub (upper b) (lower b).

(** [BBox3fa::extend]; the accumulator starts as the empty box, which has
    no real-valued corners and is [None] here. *)
Definition bbox_extend (acc : option BBox3fa) (b : BBox3fa) : option BBox3fa :=
  match acc with
  | None => Some b
  | Some a => Some (BBox3 (vmin (lower a) (lower b)) (vmax (upper a) (upper b)))
  end.

(** The thresholds of the two degeneracy tests, with the values of the
    literals of the source: the chord is compared with the
    single-precision [1E-18f], the binary32 number nearest to [10^-18],
    which is [9671407 * 2^-83]; the secondary axis with the
    double-precision [1E-18], which is [1298074214633707 * 2^-110].  Both
    lie above [10^-18], the second below the first. *)
Definition eps18f : R := 9671407 / 2 ^ 83.
Definition eps18 : R := 1298074214633707 / 2 ^ 110.

(** [sqrt(3.0f)]: the binary32 number nearest to the square root of 3,
    [14529495 * 2^-23], which lies below it. *)
Definition sqrt3f : R := 14529495 / 2 ^ 23.

Definition orthonormal (l : LinearSpace3fa) : Prop :=
  dot (vx l) (vx l) = 1 /\ dot (vy l) (vy l) = 1 /\ dot (vz l) (vz l) = 1 /\
  dot (vx l) (vy l) = 0 /\ dot (vy l) (vz l) = 0 /\ dot (vz l) (vx l) = 0.

(** Right-handed: the three axes are cyclically related by the cross
    product. *)
Definition right_handed (l : LinearSpace3fa) : Prop :=
  cross (vx l) (vy l) = vz l /\ cross (vy l) (vz l) = vx l /\ cross (vz l) (vx l) = vy l.

End VectorOps.

(** ** Primitive references, curves and the scene *)

Record PrimRef := mkPrimRef { geomID : Z; primID : Z }.

Definition is_u32 (v : Z) : Prop := 0 <= v < 2 ^ 32.

Definition wf_PrimRef (p : PrimRef) : Prop := is_u32 (geomID p) /\ is_u32 (primID p).

(** Modelled from the spec: [PrimRef::ID64] (primref.h is not under
    src/), the composite identifier combining geometry id and primitive
    id into one 64-bit ordering key. *)
Definition ID64 (p : PrimRef) : Z := wrap64 (geomID p + Z.shiftl (primID p) 32).

Record Curve3fa := mkCurve { v0 : Vec3fa; v1 : Vec3fa; v2 : Vec3fa; v3 : Vec3fa }.

(** The interface of the curve basis used by the solver: start point, end
    point and derivative at a parameter. *)
Class CurveBasis := {
  curve_begin : Curve3fa -> Vec3fa;
  curve_end : Curve3fa -> Vec3fa;
  curve_eval_du : Curve3fa -> R -> Vec3fa
}.

(** The cubic Bezier basis. *)
Definition bezier_eval_du (c : Curve3fa) (t : R) : Vec3fa :=
  let a := vsub (v1 c) (v0 c) in
  let b := vsub (v2 c) (v1 c) in
  let d := vsub (v3 c) (v2 c) in
  Vec3 (3 * ((1 - t) * (1 - t) * x a + 2 * (1 - t) * t * x b + t * t * x d))%R
       (3 * ((1 - t) * (1 - t) * y a + 2 * (1 - t) * t * y b + t * t * y d))%R
       (3 * ((1 - t) * (1 - t) * z a + 2 * (1 - t) * t * z b + t * t * z d))%R.

Definition BezierBasis : CurveBasis :=
  {| curve_begin := v0; curve_end := v3; curve_eval_du := bezier_eval_du |}.

(** The geometry source: what the code asks of a [NativeCurves] mesh. *)
Record NativeCurves := mkNativeCurves {
  curve : Z -> Z;
  vertex : Z -> Vec3fa;
  bounds : Z -> BBox3fa;
  bounds_space : Vec3fa -> R -> R -> LinearSpace3fa -> Z -> BBox3fa
}.

Definition Scene := Z -> NativeCurves.

Record range := mkRange { r_begin : Z; r_end : Z }.

Definition range_size (s : range) : Z := wrap64 (r_end s - r_begin s).

(** [range<size_t>(begin)]: the range of the single index [begin]. *)
Definition range1 (b : Z) : range := mkRange b (wrap64 (b + 1)).

(** ** Aligned-space solver *)

(** The local variables of the search loop of [computeAlignedSpace]. *)
Record solver_state := mkSolver {
  axisz : Vec3fa;
  axisy : Vec3fa;
  bestGeomPrimID : Z
}.

Definition solver_init : solver_state :=
  mkSolver (Vec3 0 0 1) (Vec3 0 1 0) (wrap64 (-1)).

Section Solver.

Context {basis : CurveBasis}.

(** [frame] of the math headers builds a frame around one axis; it is not
    under src/ and stays a parameter of the solver. *)
Variable frame : Vec3fa -> LinearSpace3fa.

Variable scene : Scene.
Variable prims : list PrimRef.

(** The vector from the start point to the end point of the curve of
    [p], after the offset and scale are applied to the control points,
    and the derivative at parameter 0. *)
Definition prim_curve (offset : Vec3fa) (scale : R) (p : PrimRef) : Curve3fa :=
  let mesh := scene (geomID p) in
  let vtxID := curve mesh (primID p) in
  mkCurve (vscale (vsub (vertex mesh (wrap32 (vtxID + 0))) offset) scale)
          (vscale (vsub (vertex mesh (wrap32 (vtxID + 1))) offset) scale)
          (vscale (vsub (vertex mesh (wrap32 (vtxID + 2))) offset) scale)
          (vscale (vsub (vertex mesh (wrap32 (vtxID + 3))) offset) scale).

Definition chord (offset : Vec3fa) (scale : R) (p : PrimRef) : Vec3fa :=
  let c := prim_curve offset scale p in
  vsub (curve_end c) (curve_begin c).

(** One iteration of the search loop on the primitive [p]. *)
Definition solver_step (offset : Vec3fa) (scale : R)
    (st : solver_state) (p : PrimRef) : solver_state :=
  let geomprimID := ID64 p in
  if bestGeomPrimID st <=? geomprimID then st
  else
    let c := prim_curve offset scale p in
    let p0 := curve_begin c in
    let p3 := curve_end c in
    let d0 := curve_eval_du c 0%R in
    let axisz_ := normalize (vsub p3 p0) in
    let axisy_ := cross axisz_ d0 in
    if Rgt_dec (sqr_length (vsub p3 p0)) eps18f
    then mkSolver axisz_ axisy_ geomprimID
    else st.

(** The loop [for (i = set.begin(); i < set.end(); i++)], [n] iterations
    from index [i]; reading [prims[i]] outside the array has no defined
    result. *)
Fixpoint solver_loop (offset : Vec3fa) (scale : R) (i : Z) (n : nat)
    (st : solver_state) : option solver_state :=
  match n with
  | O => Some st
  | S n' =>
      match prims !! Z.to_nat i with
      | None => None
      | Some p => solver_loop offset scale (i + 1) n' (solver_step offset scale st p)
      end
  end.

(** The frame returned from the final values of the loop variables. *)
Definition solver_finish (st : solver_state) : LinearSpace3fa :=
  if Rgt_dec (sqr_length (axisy st)) eps18
  then
    let axisy' := normalize (axisy st) in
    let axisx := normalize (cross axisy' (axisz st)) in
    LinearSpace3 axisx axisy' (axisz st)
  else frame (axisz st).

Definition computeAlignedSpace (set : range) (offset : Vec3fa) (scale : R)
    : option LinearSpace3fa :=
  match solver_loop offset scale (r_begin set)
          (Z.to_nat (r_end set - r_begin set)) solver_init with
  | None => None
  | Some st => Some (solver_finish st)
  end.

End Solver.

(** An instance of the parameter [frame], to run the definitions on the
    examples: a frame around the axis [N] whose first axis is the longer
    of the cross products of the x and of the y unit vector with [N], and
    whose second axis is the cross product of [N] with the first.  The
    function [frame] of the source is not under src/ and the format
    description does not say which construction it is: it stays a
    parameter of every definition and of every theorem, and nothing below
    takes this instance for it. *)
Definition frame_of_axis (N : Vec3fa) : LinearSpace3fa :=
  let dx0 := cross (Vec3 1 0 0) N in
  let dx1 := cross (Vec3 0 1 0) N in
  let dx := normalize (if Rgt_dec (dot dx0 dx0) (dot dx1 dx1) then dx0 else dx1) in
  let dy := normalize (cross N dx) in
  LinearSpace3 dx dy N.

(** The identity frame. *)
Definition identity_frame : LinearSpace3fa :=
  LinearSpace3 (Vec3 1 0 0) (Vec3 0 1 0) (Vec3 0 0 1).

(** ** Block storage

    A block is written through typed pointers into raw storage.  Storage
    maps addresses to cells; a cell holds one byte of an integer or one of
    the four parts of a stored float. *)

Inductive memval :=
| Byte (b : Z)
| FloatPart (f : R) (k : nat).

Definition memory := gmap Z memval.

(** Little-endian bytes of the low [8 * n] bits of [v]. *)
Fixpoint le_bytes (n : nat) (v : Z) : list memval :=
  match n with
  | O => []
  | S n' => Byte (v mod 256) :: le_bytes n' (v / 256)
  end.

Definition float_parts (f : R) : list memval :=
  [FloatPart f 0; FloatPart f 1; FloatPart f 2; FloatPart f 3].

Fixpoint store_vals (a : Z) (vs : list memval) (m : memory) : memory :=
  match vs with
  | [] => m
  | v :: vs' => store_vals (a + 1) vs' (<[a := v]> m)
  end.

Fixpoint load_vals (a : Z) (n : nat) (m : memory) : option (list memval) :=
  match n with
  | O => Some []
  | S n' =>
      match m !! a, load_vals (a + 1) n' m with
      | Some v, Some vs => Some (v :: vs)
      | _, _ => None
      end
  end.

(** Unsigned value of little-endian bytes; [None] when a cell does not
    hold an integer byte. *)
Fixpoint le_value (vs : list memval) : option Z :=
  match vs with
  | [] => Some 0
  | Byte b :: vs' =>
      match le_value vs' with
      | Some r => Some (b + 256 * r)
      | None => None
      end
  | FloatPart _ _ :: _ => None
  end.

Definition float_value (vs : list memval) : option R :=
  match vs with
  | [FloatPart f 0%nat; FloatPart f1 1%nat; FloatPart f2 2%nat; FloatPart f3 3%nat] =>
      if Req_dec_T f f1 then if Req_dec_T f f2 then if Req_dec_T f f3
      then Some f else None else None else None
  | _ => None
  end.

Definition store_uchar (a v : Z) (m : memory) : memory := store_vals a (le_bytes 1 v) m.
Definition store_char (a v : Z) (m : memory) : memory := store_vals a (le_bytes 1 v) m.
Definition store_short (a v : Z) (m : memory) : memory := store_vals a (le_bytes 2 v) m.
Definition store_uint (a v : Z) (m : memory) : memory := store_vals a (le_bytes 4 v) m.
Definition store_float (a : Z) (f : R) (m : memory) : memory := store_vals a (float_parts f) m.
Definition store_Vec3f (a : Z) (v : Vec3fa) (m : memory) : memory :=
  store_float (a + 8) (z v) (store_float (a + 4) (y v) (store_float a (x v) m)).

Definition load_unsigned (n : nat) (a : Z) (m : memory) : option Z :=
  match load_vals a n m with
  | Some vs => le_value vs
  | None => None
  end.

Definition load_uchar (a : Z) (m : memory) : option Z := load_unsigned 1 a m.
Definition load_uint (a : Z) (m : memory) : option Z := load_unsigned 4 a m.
Definition load_char (a : Z) (m : memory) : option Z :=
  option_map (wrap_signed 8) (load_unsigned 1 a m).
Definition load_short (a : Z) (m : memory) : option Z :=
  option_map (wrap_signed 16) (load_unsigned 2 a m).
Definition load_float (a : Z) (m : memory) : option R :=
  match load_vals a 4 m with
  | Some vs => float_value vs
  | None => None
  end.

(** ** Quantizer *)

(** [(short) clamp(floor(l), -32767.0f, 32767.0f)] *)
Definition quantize_lower (l : R) : Z :=
  to_short (Ztrunc (clamp (floor l) (-32767) 32767)).

(** [(short) clamp(ceil(u), -32767.0f, 32767.0f)] *)
Definition quantize_upper (u : R) : Z :=
  to_short (Ztrunc (clamp (ceil u) (-32767) 32767)).

(** A component [c] of [space3] is cast to [short] and assigned to a
    [char] element. *)
Definition quantize_char (c : R) : Z := to_char (to_short (Ztrunc c)).

(** The product [s * a] of a scalar and a vector, each component being
    the single-precision product [mulf s _].  The rounding of this product
    is the one rounding a property below depends on, so the
    single-precision multiplication is a parameter: the exact product
    [Rmult], or any rounding of it. *)
Definition smulf (mulf : R -> R -> R) (s : R) (a : Vec3fa) : Vec3fa :=
  Vec3 (mulf s (x a)) (mulf s (y a)) (mulf s (z a)).

(** [space3]: the frame scaled by 126 and truncated. *)
Definition quantize_space (mulf : R -> R -> R) (space2 : LinearSpace3fa)
    : LinearSpace3fa :=
  LinearSpace3 (vtrunc (smulf mulf 126 (vx space2)))
               (vtrunc (smulf mulf 126 (vy space2)))
               (vtrunc (smulf mulf 126 (vz space2))).


(** ** Block filler *)

Section Fill.

Context {basis : CurveBasis}.
Variable M : Z.
Variable mulf : R -> R -> R.
Variable frame : Vec3fa -> LinearSpace3fa.
Variable scene : Scene.
Variable prims : list PrimRef.

(** The rotated, scaled and inflated bound the geometry returns for the
    primitive [p] under the quantized frame [space3]. *)
Definition prim_bounds (loffset : Vec3fa) (lscale : R) (space3 : LinearSpace3fa)
    (p : PrimRef) : BBox3fa :=
  bounds_space (scene (geomID p)) loffset lscale
    (max3 (length3 (vx space3)) (length3 (vy space3)) (length3 (vz space3)))
    (transposed space3) (primID p).

(** The stores of one iteration of the encoding loop, for the primitive
    [p] at slot [i] of the block at [this] with count [N]. *)
Definition store_prim (this N i : Z) (space3 : LinearSpace3fa) (b : BBox3fa)
    (p : PrimRef) (m : memory) : memory :=
  let m := store_char (Layout.bounds_vx_x this N + i) (quantize_char (x (vx space3))) m in
  let m := store_char (Layout.bounds_vx_y this N + i) (quantize_char (y (vx space3))) m in
  let m := store_char (Layout.bounds_vx_z this N + i) (quantize_char (z (vx space3))) m in
  let m := store_short (Layout.bounds_vx_lower this N + 2 * i) (quantize_lower (x (lower b))) m in
  let m := store_short (Layout.bounds_vx_upper this N + 2 * i) (quantize_upper (x (upper b))) m in
  let m := store_char (Layout.bounds_vy_x this N + i) (quantize_char (x (vy space3))) m in
  let m := store_char (Layout.bounds_vy_y this N + i) (quantize_char (y (vy space3))) m in
  let m := store_char (Layout.bounds_vy_z this N + i) (quantize_char (z (vy space3))) m in
  let m := store_short (Layout.bounds_vy_lower this N + 2 * i) (quantize_lower (y (lower b))) m in
  let m := store_short (Layout.bounds_vy_upper this N + 2 * i) (quantize_upper (y (upper b))) m in
  let m := store_char (Layout.bounds_vz_x this N + i) (quantize_char (x (vz space3))) m in
  let m := store_char (Layout.bounds_vz_y this N + i) (quantize_char (y (vz space3))) m in
  let m := store_char (Layout.bounds_vz_z this N + i) (quantize_char (z (vz space3))) m in
  let m := store_short (Layout.bounds_vz_lower this N + 2 * i) (quantize_lower (z (lower b))) m in
  let m := store_short (Layout.bounds_vz_upper this N + 2 * i) (quantize_upper (z (upper b))) m in
  store_uint (Layout.primID this N + 4 * i) (primID p) m.

(** The first loop of [fill]: the union of the world bounds of the [n]
    primitives from index [begin + i]. *)
Fixpoint bounds_loop (begin i : Z) (n : nat) (acc : option BBox3fa)
    : option (option BBox3fa) :=
  match n with
  | O => Some acc
  | S n' =>
      match prims !! Z.to_nat (wrap64 (begin + i)) with
      | None => None
      | Some prim =>
          bounds_loop begin (i + 1) n'
            (bbox_extend acc (bounds (scene (geomID prim)) (primID prim)))
      end
  end.

(** The second loop of [fill],
    [for (i = 0; i < M && begin < end; i++, begin++)]; [n] is the number
    of values of [i] left below [M]. *)
Fixpoint encode_loop (this N : Z) (loffset : Vec3fa) (lscale : R) (end_ : Z)
    (n : nat) (i begin : Z) (m : memory) : option (memory * Z) :=
  match n with
  | O => Some (m, begin)
  | S n' =>
      if begin <? end_ then
        match prims !! Z.to_nat begin,
              computeAlignedSpace frame scene prims (range1 begin) loffset lscale with
        | Some prim, Some space2 =>
            let space3 := quantize_space mulf space2 in
            let b := prim_bounds loffset lscale space3 prim in
            encode_loop this N loffset lscale end_ n' (i + 1) (wrap64 (begin + 1))
              (store_prim this N i space3 b prim m)
        | _, _ => None
        end
      else Some (m, begin)
  end.

(** [256.0f / d] for an extent [d]: the quotient by a zero extent is an
    infinity, which is [None] here. *)
Definition scale_of_extent (d : R) : option R :=
  if Req_dec_T d 0 then None else Some (256 / d)%R.

(** The minimum of two values of which [None] is the infinite one. *)
Definition min_finite (a b : option R) : option R :=
  match a, b with
  | Some u, Some v => Some (Rmin u v)
  | Some u, None => Some u
  | None, _ => b
  end.

(** The shared scale of a block,
    [reduce_min(256.0f/(bounds.size()*sqrt(3.0f)))]: the least quotient
    over the three axes, with the single-precision constant
    [sqrt(3.0f)]; the difference, the product and the quotient are taken
    exact, so the roundings of the three operations and the overflow of
    the quotient of a tiny extent are not in the model.  A block without
    extent on any axis has an infinite scale in the source, which has no
    real value; 0 stands for it.  No property below depends on the value
    of the scale. *)
Definition block_scale (b : BBox3fa) : R :=
  let s := vscale (bbox_size b) sqrt3f in
  match min_finite (scale_of_extent (x s))
          (min_finite (scale_of_extent (y s)) (scale_of_extent (z s))) with
  | Some r => r
  | None => 0%R
  end.

(** [fill]: writes the block at [this] from the primitives from index
    [begin], and returns the storage and the advanced [begin]. *)
Definition fill (this : Z) (begin _end : Z) (m : memory) : option (memory * Z) :=
  let end_ := Z.min (wrap64 (begin + M)) _end in
  let N := to_uchar (wrap64 (end_ - begin)) in
  let m := store_uchar (Layout.count_ptr this) N m in
  match prims !! Z.to_nat begin with
  | None => None
  | Some prim0 =>
      let geomID0 := geomID prim0 in
      let m := store_uint (Layout.geomID this N) geomID0 m in
      match bounds_loop begin 0 (Z.to_nat N) None with
      | Some (Some bounds) =>
          let loffset := lower bounds in
          let lscale := block_scale bounds in
          let m := store_Vec3f (Layout.offset this N) loffset m in
          let m := store_float (Layout.scale this N) lscale m in
          encode_loop this N loffset lscale end_ (Z.to_nat M) 0 begin m
      | _ => None
      end
  end.

(** *** [fill] with its assertions

    The source states what it expects of its input in assertions, which a
    build with assertions enabled checks and a release build leaves out:
    [fill] above is the function without them, [fill_checked] the one
    with them, in which a failed assertion ends the run. *)







(** ** Leaf creation *)

(** One call of [fill] made by [createLeaf]: the block written, the range
    handed over and the index [fill] advanced [start] to. *)
Record fill_call := mkFillCall {
  fc_block : Z;
  fc_begin : Z;
  fc_end : Z;
  fc_next : Z
}.

Variable NodeRef : Type.
Variable encodeLeaf : Z -> Z -> NodeRef.
Variable malloc1 : Z -> Z -> Z.
Variable byteAlignment : Z.

(** The loop [for (i = 0; i < items; i++) accel[i].fill(...)], [n]
    iterations from block [i]. *)
Fixpoint fill_blocks (accel _end : Z) (n : nat) (i start : Z) (m : memory)
    : option (memory * Z * list fill_call) :=
  match n with
  | O => Some (m, start, [])
  | S n' =>
      let this := accel + i * sizeof_BezierNi M in
      match fill this start _end m with
      | None => None
      | Some (m1, start1) =>
          match fill_blocks accel _end n' (i + 1) start1 m1 with
          | None => None
          | Some (m2, start2, calls) =>
              Some (m2, start2, mkFillCall this start _end start1 :: calls)
          end
      end
  end.

Record leaf := mkLeaf {
  leaf_numbytes : Z;
  leaf_alignment : Z;
  leaf_accel : Z;
  leaf_calls : list fill_call;
  leaf_memory : memory;
  leaf_node : NodeRef
}.

Definition createLeaf (set : range) (m : memory) : option leaf :=
  let start := r_begin set in
  let items := blocks M (range_size set) in
  let numbytes := bytes M (range_size set) in
  let accel := malloc1 numbytes byteAlignment in
  match fill_blocks accel (r_end set) (Z.to_nat items) 0 start m with
  | None => None
  | Some (m', _, calls) =>
      Some (mkLeaf numbytes byteAlignment accel calls m' (encodeLeaf accel items))
  end.

End Fill.


(** ** Reference definitions

    The quantities of the size law and of the block partition as the
    format description words them, to compare with the code. *)

(** The number of blocks and of bytes as the size law words them. *)
Definition ceil_div (n m : Z) : Z := n / m + (if n mod m =? 0 then 0 else 1).

Definition leaf_bytes (M n : Z) : Z :=
  n / M * (21 + 25 * M) + (if 0 <? n mod M then 21 + 25 * (n mod M) else 0).

(** The [k]-th call of [fill] when blocks of capacity [M] are filled from
    block [i] and primitive [start]. *)
Definition nth_call (M accel _end i start k : Z) : fill_call :=
  mkFillCall (accel + (i + k) * (21 + 25 * M)) (start + k * M) _end
             (Z.min (start + (k + 1) * M) _end).

(** ** A small scene

    Seven curves of one mesh laid along the x axis, used to run the
    definitions on concrete input. *)

Definition line_mesh : NativeCurves :=
  mkNativeCurves
    (fun primID => 4 * primID)
    (fun vtxID => Vec3 (IZR vtxID) 0 0)
    (fun primID => BBox3 (Vec3 (IZR (4 * primID)) 0 0) (Vec3 (IZR (4 * primID + 3)) 1 1))
    (fun _ _ _ _ _ => BBox3 (Vec3 0 0 0) (Vec3 1 1 1)).

Definition line_scene : Scene := fun _ => line_mesh.

Definition line_prims : list PrimRef :=
  [mkPrimRef 0 0; mkPrimRef 0 1; mkPrimRef 0 2; mkPrimRef 0 3;
   mkPrimRef 0 4; mkPrimRef 0 5; mkPrimRef 0 6].

(** ** The image of a block

    The stores of [fill] as a list of writes, each an address with the
    cells written there, and what a decoder reads back. *)

Definition write := (Z * list memval)%type.

Definition w_stop (w : write) : Z := fst w + Z.of_nat (length (snd w)).

Definition w_disjoint (w1 w2 : write) : Prop :=
  w_stop w1 <= fst w2 \/ w_stop w2 <= fst w1.

Definition apply_writes (ws : list write) (m : memory) : memory :=
  fold_left (fun m w => store_vals (fst w) (snd w) m) ws m.

(** The storage [m] holds the cells of the write [w]. *)
Definition holds (m : memory) (w : write) : Prop :=
  load_vals (fst w) (length (snd w)) m = Some (snd w).

Definition header_image (this N geomID0 : Z) (loffset : Vec3fa) (lscale : R)
    : list write :=
  [ (Layout.count_ptr this, le_bytes 1 N);
    (Layout.geomID this N, le_bytes 4 geomID0);
    (Layout.offset this N, float_parts (x loffset));
    (Layout.offset this N + 4, float_parts (y loffset));
    (Layout.offset this N + 8, float_parts (z loffset));
    (Layout.scale this N, float_parts lscale) ].

Definition slot_image (this N i : Z) (space3 : LinearSpace3fa) (b : BBox3fa)
    (p : PrimRef) : list write :=
  [ (Layout.bounds_vx_x this N + i, le_bytes 1 (quantize_char (x (vx space3))));
    (Layout.bounds_vx_y this N + i, le_bytes 1 (quantize_char (y (vx space3))));
    (Layout.bounds_vx_z this N + i, le_bytes 1 (quantize_char (z (vx space3))));
    (Layout.bounds_vx_lower this N + 2 * i, le_bytes 2 (quantize_lower (x (lower b))));
    (Layout.bounds_vx_upper this N + 2 * i, le_bytes 2 (quantize_upper (x (upper b))));
    (Layout.bounds_vy_x this N + i, le_bytes 1 (quantize_char (x (vy space3))));
    (Layout.bounds_vy_y this N + i, le_bytes 1 (quantize_char (y (vy space3))));
    (Layout.bounds_vy_z this N + i, le_bytes 1 (quantize_char (z (vy space3))));
    (Layout.bounds_vy_lower this N + 2 * i, le_bytes 2 (quantize_lower (y (lower b))));
    (Layout.bounds_vy_upper this N + 2 * i, le_bytes 2 (quantize_upper (y (upper b))));
    (Layout.bounds_vz_x this N + i, le_bytes 1 (quantize_char (x (vz space3))));
    (Layout.bounds_vz_y this N + i, le_bytes 1 (quantize_char (y (vz space3))));
    (Layout.bounds_vz_z this N + i, le_bytes 1 (quantize_char (z (vz space3))));
    (Layout.bounds_vz_lower this N + 2 * i, le_bytes 2 (quantize_lower (z (lower b))));
    (Layout.bounds_vz_upper this N + 2 * i, le_bytes 2 (quantize_upper (z (upper b))));
    (Layout.primID this N + 4 * i, le_bytes 4 (primID p)) ].

Section BlockImage.

Context {basis : CurveBasis}.
Variable mulf : R -> R -> R.
Variable frame : Vec3fa -> LinearSpace3fa.
Variable scene : Scene.

(** The frame the solver returns for the single primitive [p]. *)
Definition prim_space2 (loffset : Vec3fa) (lscale : R) (p : PrimRef) : LinearSpace3fa :=
  solver_finish frame (solver_step scene loffset lscale solver_init p).

Definition prim_space3 (loffset : Vec3fa) (lscale : R) (p : PrimRef) : LinearSpace3fa :=
  quantize_space mulf (prim_space2 loffset lscale p).

(** The bound the geometry returns for [p] in its quantized frame. *)
Definition prim_box (loffset : Vec3fa) (lscale : R) (p : PrimRef) : BBox3fa :=
  prim_bounds scene loffset lscale (prim_space3 loffset lscale p) p.

Fixpoint slots_image (this N : Z) (loffset : Vec3fa) (lscale : R) (i : Z)
    (ps : list PrimRef) : list write :=
  match ps with
  | [] => []
  | p :: ps' =>
      slot_image this N i (prim_space3 loffset lscale p) (prim_box loffset lscale p) p
      ++ slots_image this N loffset lscale (i + 1) ps'
  end.

(** The union of the world bounds of the primitives [ps]. *)
Definition slice_bounds (ps : list PrimRef) : option BBox3fa :=
  fold_left (fun acc p => bbox_extend acc (bounds (scene (geomID p)) (primID p))) ps None.

End BlockImage.

(** The primitives [prims[begin .. begin + n)]. *)
Definition slice (prims : list PrimRef) (begin n : Z) : list PrimRef :=
  take (Z.to_nat n) (drop (Z.to_nat begin) prims).

(** ** Decoding

    What a reader of the block gets through the accessors, given the
    count [N] the block was built with. *)

Inductive axis := AxisX | AxisY | AxisZ.

(** The axis [vx], [vy] or [vz] of a frame, and the component [x], [y]
    or [z] of a vector. *)
Definition frame_axis (a : axis) (l : LinearSpace3fa) : Vec3fa :=
  match a with AxisX => vx l | AxisY => vy l | AxisZ => vz l end.

Definition component (c : axis) (v : Vec3fa) : R :=
  match c with AxisX => x v | AxisY => y v | AxisZ => z v end.

Definition basis_ptr (a c : axis) (this N : Z) : Z :=
  match a, c with
  | AxisX, AxisX => Layout.bounds_vx_x this N
  | AxisX, AxisY => Layout.bounds_vx_y this N
  | AxisX, AxisZ => Layout.bounds_vx_z this N
  | AxisY, AxisX => Layout.bounds_vy_x this N
  | AxisY, AxisY => Layout.bounds_vy_y this N
  | AxisY, AxisZ => Layout.bounds_vy_z this N
  | AxisZ, AxisX => Layout.bounds_vz_x this N
  | AxisZ, AxisY => Layout.bounds_vz_y this N
  | AxisZ, AxisZ => Layout.bounds_vz_z this N
  end.

Definition lower_ptr (a : axis) (this N : Z) : Z :=
  match a with
  | AxisX => Layout.bounds_vx_lower this N
  | AxisY => Layout.bounds_vy_lower this N
  | AxisZ => Layout.bounds_vz_lower this N
  end.

Definition upper_ptr (a : axis) (this N : Z) : Z :=
  match a with
  | AxisX => Layout.bounds_vx_upper this N
  | AxisY => Layout.bounds_vy_upper this N
  | AxisZ => Layout.bounds_vz_upper this N
  end.

Definition decode_count (this : Z) (m : memory) : option Z :=
  load_uchar (Layout.count_ptr this) m.

Definition decode_geomID (this N : Z) (m : memory) : option Z :=
  load_uint (Layout.geomID this N) m.

Definition decode_primID (this N i : Z) (m : memory) : option Z :=
  load_uint (Layout.primID this N + 4 * i) m.

Definition decode_basis (a c : axis) (this N i : Z) (m : memory) : option Z :=
  load_char (basis_ptr a c this N + i) m.

Definition decode_lower (a : axis) (this N i : Z) (m : memory) : option Z :=
  load_short (lower_ptr a this N + 2 * i) m.

Definition decode_upper (a : axis) (this N i : Z) (m : memory) : option Z :=
  load_short (upper_ptr a this N + 2 * i) m.

Definition decode_offset (this N : Z) (m : memory) : option Vec3fa :=
  match load_float (Layout.offset this N) m,
        load_float (Layout.offset this N + 4) m,
        load_float (Layout.offset this N + 8) m with
  | Some a, Some b, Some c => Some (Vec3 a b c)
  | _, _, _ => None
  end.

Definition decode_scale (this N : Z) (m : memory) : option R :=
  load_float (Layout.scale this N) m.

(** Every component of the vector, and of the frame, lies in [[-1, 1]]. *)
Definition unit_bounded (v : Vec3fa) : Prop :=
  forall c, (Rabs (component c v) <= 1)%R.

Definition frame_bounded (l : LinearSpace3fa) : Prop :=
  forall a, unit_bounded (frame_axis a l).

(** ** The outcome of the search, stated on the range

    The largest value of [uint64_t], with which the search starts. *)
Definition max_ID64 : Z := 2 ^ 64 - 1.

Section SolverOutcome.

Context {basis : CurveBasis}.
Variable scene : Scene.
Variable offset : Vec3fa.
Variable scale : R.

(** The derivative at parameter 0 of the curve of [p]. *)
Definition start_derivative (p : PrimRef) : Vec3fa :=
  curve_eval_du (prim_curve scene offset scale p) 0%R.

(** The chord of [p] is long enough to define a direction. *)
Definition valid_direction (p : PrimRef) : Prop :=
  (sqr_length (chord scene offset scale p) > eps18f)%R.

(** [p] can become the defining primitive: its identifier is below the
    starting value of the search and its chord defines a direction. *)
Definition candidate (p : PrimRef) : Prop :=
  ID64 p < max_ID64 /\ valid_direction p.

(** The loop variables once [p] is the defining primitive. *)
Definition solver_of (p : PrimRef) : solver_state :=
  let t := normalize (chord scene offset scale p) in
  mkSolver t (cross t (start_derivative p)) (ID64 p).

(** The state [st] is the one the search reaches on the primitives [ps]:
    the initial one when none is a candidate, else that of a candidate of
    least identifier. *)
Definition tracks (st : solver_state) (ps : list PrimRef) : Prop :=
  (st = solver_init /\ forall p, p ∈ ps -> ~ candidate p) \/
  (exists q, q ∈ ps /\ candidate q /\ st = solver_of q /\
             forall p, p ∈ ps -> candidate p -> ID64 q <= ID64 p).

End SolverOutcome.

(** A mesh with one bent curve, from (0,0,0) to (1,0,0), leaving along
    the y axis. *)
Definition bent_mesh : NativeCurves :=
  mkNativeCurves
    (fun _ => 0)
    (fun vtxID =>
       if vtxID =? 0 then Vec3 0 0 0
       else if vtxID =? 1 then Vec3 0 1 0
       else if vtxID =? 2 then Vec3 1 1 0
       else Vec3 1 0 0)
    (fun _ => BBox3 (Vec3 0 0 0) (Vec3 1 1 0))
    (fun _ _ _ _ _ => BBox3 (Vec3 0 0 0) (Vec3 1 1 1)).

Definition bent_scene : Scene := fun _ => bent_mesh.

(** A mesh whose curves all have their control points at the origin. *)
Definition point_mesh : NativeCurves :=
  mkNativeCurves
    (fun primID => 4 * primID)
    (fun _ => Vec3 0 0 0)
    (fun _ => BBox3 (Vec3 0 0 0) (Vec3 0 0 0))
    (fun _ _ _ _ _ => BBox3 (Vec3 0 0 0) (Vec3 0 0 0)).

Definition point_scene : Scene := fun _ => point_mesh.

(** The primitive reference whose composite identifier is the largest
    64-bit value. *)
Definition last_prim : PrimRef := mkPrimRef (2 ^ 32 - 1) (2 ^ 32 - 1).

(** A scene whose geometry [2^32 - 1] is the bent curve and whose other
    geometries are curves shrunk to a point. *)
Definition mixed_scene : Scene :=
  fun g => if g =? 2 ^ 32 - 1 then bent_mesh else point_mesh.

(** ** Single precision

    The binary32 format, with the correctly rounded product and the
    conversion to an integer by truncation, to run the quantization of a
    basis component [(short) trunc(126.0f * c)] on actual floats. *)

Module Binary32.

Definition prec : Z := 24.
Definition emax : Z := 128.

Definition float := spec_float.

Definition mul (a b : float) : float := SFmul prec emax a b.

Definition is_finite (a : float) : bool :=
  match a with
  | S754_zero _ | S754_finite _ _ _ => true
  | _ => false
  end.

(** The float of a small integer. *)
Definition of_Z (k : Z) : float :=
  match k with
  | Z0 => S754_zero false
  | Zpos p => binary_normalize prec emax (Zpos p) 0 false
  | Zneg p => binary_normalize prec emax (Zneg p) 0 false
  end.

Definition f126 : float := of_Z 126.

(** [trunc] followed by the conversion to an integer: the integer part of
    a finite float. *)
Definition trunc_to_int (a : float) : option Z :=
  match a with
  | S754_zero _ => Some 0
  | S754_finite s m e =>
      let v := if 0 <=? e then Zpos m * 2 ^ e else Zpos m / 2 ^ (- e) in
      Some (if s then - v else v)
  | _ => None
  end.

(** The real value of a finite float. *)
Definition to_R (a : float) : R :=
  match a with
  | S754_finite s m e =>
      let v := if 0 <=? e then IZR (Zpos m * 2 ^ e) else (IZR (Zpos m) / IZR (2 ^ (- e)))%R in
      if s then (- v)%R else v
  | _ => 0%R
  end.

(** A component slightly above 0.992: [16644063 * 2^-24]. *)
Definition c_near_125 : float := S754_finite false 16644063 (-24).

End Binary32.

(** ** Proof automation *)

Ltac split_list_goal :=
  repeat match goal with
         | |- Forall _ _ => constructor
         | |- ForallOrdPairs _ _ => constructor
         end.

Ltac unfold_layout :=
  unfold Layout.count_ptr, Layout.geomID, Layout.primID,
    Layout.bounds_vx_x, Layout.bounds_vx_y, Layout.bounds_vx_z,
    Layout.bounds_vx_lower, Layout.bounds_vx_upper,
    Layout.bounds_vy_x, Layout.bounds_vy_y, Layout.bounds_vy_z,
    Layout.bounds_vy_lower, Layout.bounds_vy_upper,
    Layout.bounds_vz_x, Layout.bounds_vz_y, Layout.bounds_vz_z,
    Layout.bounds_vz_lower, Layout.bounds_vz_upper,
    Layout.offset, Layout.scale, Layout.end_ in *.

(** Two writes of a block image do not overlap. *)
Ltac solve_disjoint :=
  unfold w_disjoint, w_stop;
  cbn [fst snd length le_bytes float_parts];
  unfold_layout; lia.

(** ** The footprint of a block and the blocks of a leaf *)

(** The write [w] stays inside the bytes [[lo, hi)]. *)
Definition w_inside (lo hi : Z) (w : write) : Prop :=
  lo <= fst w /\ w_stop w <= hi.

(** The address of block [k] of the leaf at [accel], as [accel[k]]
    computes it, and the number of primitives it receives when the leaf
    has [Ntotal] of them. *)
Definition leaf_block (M accel k : Z) : Z := accel + k * sizeof_BezierNi M.

Definition leaf_block_count (M Ntotal k : Z) : Z := Z.min M (Ntotal - k * M).

Section BlockHolds.

Context {basis : CurveBasis}.
Variable mulf : R -> R -> R.
Variable frame : Vec3fa -> LinearSpace3fa.
Variable scene : Scene.
Variable prims : list PrimRef.

(** The storage [m] holds the block at [this] that [fill] builds from the
    [N] primitives from index [start]: its header and one slot for each
    primitive. *)
Definition block_holds (this N start : Z) (m : memory) : Prop :=
  exists p0 bb,
    prims !! Z.to_nat start = Some p0 /\
    slice_bounds scene (slice prims start N) = Some bb /\
    Forall (holds m) (header_image this N (geomID p0) (lower bb) (block_scale bb)) /\
    forall j p, 0 <= j < N -> prims !! Z.to_nat (start + j) = Some p ->
      Forall (holds m)
        (slot_image this N j
           (prim_space3 mulf frame scene (lower bb) (block_scale bb) p)
           (prim_box mulf frame scene (lower bb) (block_scale bb) p) p).

End BlockHolds.

(** ** The assertions of [fill], stated on the primitives

    What the assertions of [fill] ask of the primitive at index [j] of a
    block: the geometry id [g] of the first primitive of the block, and a
    bound inside the window of the 16-bit bounds. *)



(** ** Boxes *)

(** The box [outer] contains the box [inner], axis by axis. *)
Definition bbox_contains (outer inner : BBox3fa) : Prop :=
  forall c, (component c (lower outer) <= component c (lower inner) /\
             component c (upper inner) <= component c (upper outer))%R.

(** The world bound the geometry gives for the primitive [p]. *)
Definition world_bounds (scene : Scene) (p : PrimRef) : BBox3fa :=
  bounds (scene (geomID p)) (primID p).

(** ** Frames *)

(** The single-vector construction returns a right-handed orthonormal
    frame around every unit axis. *)
Definition frame_orthonormal (frame : Vec3fa -> LinearSpace3fa) : Prop :=
  forall N, dot N N = 1%R -> orthonormal (frame N) /\ right_handed (frame N).

(** * Properties *)

(** ** The definitions on small inputs *)

Example blocks_4_7 : blocks 4 7 = 2.
Proof. reflexivity. Qed.

Example bytes_4_7 : bytes 4 7 = 217.
Proof. reflexivity. Qed.

Example bytes_8_16 : bytes 8 16 = 2 * sizeof_BezierNi 8.
Proof. reflexivity. Qed.

Example blocks_8_0 : blocks 8 0 = 0.
Proof. reflexivity. Qed.

Example to_char_252 : to_char (to_short 252) = -4.
Proof. reflexivity. Qed.

Example to_short_minus : to_short (-32767) = -32767.
Proof. reflexivity. Qed.

Example ID64_pair : ID64 (mkPrimRef 3 1) = 2 ^ 32 + 3.
Proof. reflexivity. Qed.

Example end_of_block_3 : Layout.end_ 0 3 = 96.
Proof. reflexivity. Qed.

Example store_load_short :
  load_short 10 (store_short 10 (-32767) (store_uint 4 7 ∅)) = Some (-32767).
Proof. vm_compute. reflexivity. Qed.

Example binary32_product :
  Binary32.mul Binary32.f126 (Binary32.of_Z 1) = Binary32.f126.
Proof. vm_compute. reflexivity. Qed.

(** ** Layout codec *)

Module LayoutFacts.
Import Layout.

Lemma fields_tile this N : 0 < N -> tiles this (fields this N) (end_ this N).
Proof.
  intros HN. unfold fields, end_, count_ptr, Layout.geomID, Layout.primID,
    bounds_vx_x, bounds_vx_y, bounds_vx_z, bounds_vx_lower, bounds_vx_upper,
    bounds_vy_x, bounds_vy_y, bounds_vy_z, bounds_vy_lower, bounds_vy_upper,
    bounds_vz_x, bounds_vz_y, bounds_vz_z, bounds_vz_lower, bounds_vz_upper,
    offset, scale.
  cbn [tiles r_start r_len r_stop]. unfold r_stop; cbn [r_start r_len].
  repeat split; lia.
Qed.

(** Regions that tile an interval lie inside it. *)
Lemma tiles_bounds l : forall from to,
  tiles from l to -> from <= to /\ Forall (fun r => from <= r_start r /\ r_stop r <= to) l.
Proof.
  induction l as [|r l IH]; intros from to H; cbn in H.
  - subst. split; [lia | constructor].
  - destruct H as (Hs & Hl & Ht). destruct (IH _ _ Ht) as [Hle Hall].
    unfold r_stop in *. split; [lia |].
    constructor; [lia |].
    eapply Forall_impl; [exact Hall |]. cbn. intros a Ha. lia.
Qed.

(** Regions that tile an interval are pairwise disjoint. *)
Lemma tiles_disjoint l : forall from to,
  tiles from l to -> ForallOrdPairs disjoint l.
Proof.
  induction l as [|r l IH]; intros from to H; [constructor |].
  cbn in H. destruct H as (Hs & Hl & Ht). constructor.
  - destruct (tiles_bounds _ _ _ Ht) as [_ Hall].
    eapply Forall_impl; [exact Hall |]. cbn. intros a Ha. left.
    unfold r_stop in *. lia.
  - eapply IH; eauto.
Qed.

End LayoutFacts.

(** C2: for every count [N] with [1 <= N <= M] the accessors are functions
    of the base address and [N] alone and give the documented offsets:
    count at 0, geometry id at 1, primitive ids at 5, the three groups of
    basis and bound arrays from [5+4N], [5+11N] and [5+18N], the offset
    vector at [5+25N], the scale at [5+25N+12] and the block end at
    [21+25N]; the fields follow each other without gap from the base to
    the block end and are pairwise disjoint. *)
Theorem C2_layout_offsets (this N M : Z) :
  1 <= N <= M ->
  Layout.fields this N =
    [ Layout.Region (this + 0) 1; Layout.Region (this + 1) 4;
      Layout.Region (this + 5) (4 * N);
      Layout.Region (this + (5 + 4 * N)) N; Layout.Region (this + (5 + 5 * N)) N;
      Layout.Region (this + (5 + 6 * N)) N;
      Layout.Region (this + (5 + 7 * N)) (2 * N); Layout.Region (this + (5 + 9 * N)) (2 * N);
      Layout.Region (this + (5 + 11 * N)) N; Layout.Region (this + (5 + 12 * N)) N;
      Layout.Region (this + (5 + 13 * N)) N;
      Layout.Region (this + (5 + 14 * N)) (2 * N); Layout.Region (this + (5 + 16 * N)) (2 * N);
      Layout.Region (this + (5 + 18 * N)) N; Layout.Region (this + (5 + 19 * N)) N;
      Layout.Region (this + (5 + 20 * N)) N;
      Layout.Region (this + (5 + 21 * N)) (2 * N); Layout.Region (this + (5 + 23 * N)) (2 * N);
      Layout.Region (this + (5 + 25 * N)) 12; Layout.Region (this + (5 + 25 * N + 12)) 4 ] /\
  Layout.end_ this N = this + (5 + 25 * N + 16) /\
  Layout.end_ this N = this + (21 + 25 * N) /\
  Layout.tiles this (Layout.fields this N) (Layout.end_ this N) /\
  ForallOrdPairs Layout.disjoint (Layout.fields this N) /\
  Forall (fun r => this <= Layout.r_start r /\ Layout.r_stop r <= Layout.end_ this N)
    (Layout.fields this N).
Proof.
  intros [HN _].
  assert (Ht : Layout.tiles this (Layout.fields this N) (Layout.end_ this N))
    by (apply LayoutFacts.fields_tile; lia).
  split; [| split; [| split; [| split; [| split]]]].
  - unfold Layout.fields, Layout.count_ptr, Layout.geomID, Layout.primID,
      Layout.bounds_vx_x, Layout.bounds_vx_y, Layout.bounds_vx_z,
      Layout.bounds_vx_lower, Layout.bounds_vx_upper,
      Layout.bounds_vy_x, Layout.bounds_vy_y, Layout.bounds_vy_z,
      Layout.bounds_vy_lower, Layout.bounds_vy_upper,
      Layout.bounds_vz_x, Layout.bounds_vz_y, Layout.bounds_vz_z,
      Layout.bounds_vz_lower, Layout.bounds_vz_upper, Layout.offset, Layout.scale.
    repeat (f_equal; try lia).
  - unfold Layout.end_. lia.
  - unfold Layout.end_. lia.
  - exact Ht.
  - eapply LayoutFacts.tiles_disjoint; exact Ht.
  - eapply LayoutFacts.tiles_bounds; exact Ht.
Qed.

Lemma C2_layout_offsets_witness :
  Layout.end_ 1000 3 = 1000 + (21 + 25 * 3) /\
  ForallOrdPairs Layout.disjoint (Layout.fields 1000 3).
Proof.
  pose proof (C2_layout_offsets 1000 3 4 ltac:(lia)) as H.
  split; [apply H | apply H].
Defined.

(** ** Block and byte counts *)

Lemma wrap64_small v : 0 <= v < 2 ^ 64 -> wrap64 v = v.
Proof. intros H. unfold wrap64. apply Z.mod_small. exact H. Qed.

Lemma sizeof_BezierNi_eq M : sizeof_BezierNi M = 21 + 25 * M.
Proof. unfold sizeof_BezierNi. lia. Qed.

Lemma ceil_div_least n m : 0 < m -> 0 <= n ->
  n <= ceil_div n m * m /\ (ceil_div n m - 1) * m < n.
Proof.
  intros Hm Hn. unfold ceil_div.
  pose proof (Z.div_mod n m ltac:(lia)) as Hdm.
  pose proof (Z.mod_pos_bound n m Hm) as Hb.
  destruct (n mod m =? 0) eqn:E.
  - apply Z.eqb_eq in E. nia.
  - apply Z.eqb_neq in E. nia.
Qed.

Lemma blocks_exact M N : 0 < M -> 0 <= N -> N + M - 1 < 2 ^ 64 ->
  blocks M N = ceil_div N M.
Proof.
  intros HM HN Hlt. unfold blocks, ceil_div.
  assert (Hw : wrap64 (wrap64 (N + M) - 1) = N + M - 1).
  { unfold wrap64. rewrite Zminus_mod_idemp_l. apply Z.mod_small. lia. }
  rewrite Hw.
  pose proof (Z.div_mod N M ltac:(lia)) as Hdm.
  pose proof (Z.mod_pos_bound N M HM) as Hb.
  assert (Hq : (N + M - 1) / M = N / M + (if N mod M =? 0 then 0 else 1)).
  { destruct (N mod M =? 0) eqn:E.
    - apply Z.eqb_eq in E. symmetry. apply (Z.div_unique _ _ _ (M - 1)); lia.
    - apply Z.eqb_neq in E. symmetry.
      apply (Z.div_unique _ _ _ (N mod M - 1)); lia. }
  rewrite <- Hq. apply wrap64_small. split.
  - apply Z.div_pos; lia.
  - apply Z.le_lt_trans with (N + M - 1); [| lia].
    apply Z.div_le_upper_bound; nia.
Qed.

Lemma bytes_exact M N : 0 < M -> 0 <= N -> leaf_bytes M N < 2 ^ 64 ->
  bytes M N = leaf_bytes M N.
Proof.
  intros HM HN Hlt. unfold bytes, leaf_bytes in *.
  rewrite sizeof_BezierNi_eq.
  pose proof (Z.mod_pos_bound N M HM) as Hb.
  assert (0 <= N / M) by (apply Z.div_pos; lia).
  destruct (N mod M =? 0) eqn:E.
  - apply Z.eqb_eq in E. rewrite E in *. cbn [Z.ltb Z.compare] in *.
    change (wrap64 (0 * wrap64 (21 + wrap64 (25 * 0)))) with 0.
    rewrite (wrap64_small (N / M * (21 + 25 * M))) by nia.
    apply wrap64_small. nia.
  - apply Z.eqb_neq in E.
    assert (Hpos : (0 <? N mod M) = true) by (apply Z.ltb_lt; lia).
    rewrite Hpos in *.
    assert (0 <= N / M * (21 + 25 * M)) by nia.
    rewrite (wrap64_small (25 * (N mod M))) by lia.
    rewrite (wrap64_small (21 + 25 * (N mod M))) by lia.
    rewrite Z.mul_1_l.
    rewrite (wrap64_small (21 + 25 * (N mod M))) by lia.
    rewrite (wrap64_small (N / M * (21 + 25 * M))) by lia.
    apply wrap64_small. lia.
Qed.

(** ** The block filler returns *)

Section FillReturns.

Context {basis : CurveBasis}.
Variable M : Z.
Variable mulf : R -> R -> R.
Variable frame : Vec3fa -> LinearSpace3fa.
Variable scene : Scene.
Variable prims : list PrimRef.

Hypothesis M_range : 1 <= M <= 255.
Hypothesis prims_addressable : Z.of_nat (length prims) + M < 2 ^ 64.

Lemma prims_lookup (i : Z) :
  0 <= i < Z.of_nat (length prims) -> exists p, prims !! Z.to_nat i = Some p.
Proof.
  intros H. destruct (lookup_lt_is_Some_2 prims (Z.to_nat i)) as [p Hp]; [lia |].
  exists p. exact Hp.
Qed.

(** The solver run on the range of the single index [i] performs one
    step from the initial state. *)
Lemma computeAlignedSpace_range1 (i : Z) (p : PrimRef) offset scale :
  0 <= i -> i + 1 < 2 ^ 64 -> prims !! Z.to_nat i = Some p ->
  computeAlignedSpace frame scene prims (range1 i) offset scale =
    Some (solver_finish frame (solver_step scene offset scale solver_init p)).
Proof.
  intros H0 H1 Hp. unfold computeAlignedSpace, range1. cbn [r_begin r_end].
  rewrite wrap64_small by lia.
  replace (Z.to_nat (i + 1 - i)) with 1%nat by lia.
  cbn [solver_loop]. rewrite Hp. reflexivity.
Qed.

Lemma bounds_loop_returns begin : forall n i acc,
  0 <= begin -> 0 <= i ->
  begin + i + Z.of_nat n <= Z.of_nat (length prims) ->
  (n <> O \/ acc <> None) ->
  exists b, bounds_loop scene prims begin i n acc = Some (Some b).
Proof.
  induction n as [|n IH]; intros i acc Hb Hi Hlen Hne.
  - destruct acc as [b|]; [exists b; reflexivity | destruct Hne; congruence].
  - cbn [bounds_loop]. rewrite wrap64_small by lia.
    destruct (prims_lookup (begin + i)) as [p Hp]; [lia |].
    rewrite Hp. apply IH; try lia.
    right. destruct acc; discriminate.
Qed.

Lemma encode_loop_returns this N loffset lscale end_ : forall n i begin m,
  0 <= begin <= end_ -> end_ <= Z.of_nat (length prims) ->
  end_ - begin <= Z.of_nat n ->
  exists m', encode_loop mulf frame scene prims this N loffset lscale end_ n i begin m
             = Some (m', end_).
Proof.
  induction n as [|n IH]; intros i begin m Hb He Hn.
  - cbn [encode_loop]. exists m. f_equal. f_equal. lia.
  - cbn [encode_loop]. destruct (begin <? end_) eqn:E.
    + apply Z.ltb_lt in E.
      destruct (prims_lookup begin) as [p Hp]; [lia |].
      rewrite Hp, (computeAlignedSpace_range1 begin p) by (auto; lia).
      rewrite wrap64_small by lia. apply IH; lia.
    + apply Z.ltb_ge in E. exists m. f_equal. f_equal. lia.
Qed.

(** The count [fill] stores: the number of primitives of the slice. *)
Lemma fill_count begin _end :
  0 <= begin < _end -> _end <= Z.of_nat (length prims) ->
  to_uchar (wrap64 (Z.min (wrap64 (begin + M)) _end - begin))
  = Z.min M (_end - begin).
Proof.
  intros Hb He. rewrite (wrap64_small (begin + M)) by lia.
  rewrite wrap64_small by lia. unfold to_uchar.
  rewrite Z.mod_small by lia. lia.
Qed.

Lemma fill_returns this begin _end m :
  0 <= begin < _end -> _end <= Z.of_nat (length prims) ->
  exists m', fill M mulf frame scene prims this begin _end m
             = Some (m', Z.min (begin + M) _end).
Proof.
  intros Hb He. unfold fill.
  rewrite (fill_count begin _end Hb He).
  rewrite (wrap64_small (begin + M)) by lia.
  destruct (prims_lookup begin) as [p Hp]; [lia |]. rewrite Hp.
  destruct (bounds_loop_returns begin (Z.to_nat (Z.min M (_end - begin))) 0 None)
    as [b Hbl]; try lia.
  rewrite Hbl. apply encode_loop_returns; lia.
Qed.

End FillReturns.

(** ** Leaf creation *)

Section LeafCreation.

Context {basis : CurveBasis}.
Variable M : Z.
Variable mulf : R -> R -> R.
Variable frame : Vec3fa -> LinearSpace3fa.
Variable scene : Scene.
Variable prims : list PrimRef.
Variable NodeRef : Type.
Variable encodeLeaf : Z -> Z -> NodeRef.
Variable malloc1 : Z -> Z -> Z.
Variable byteAlignment : Z.

Hypothesis M_range : 1 <= M <= 255.
Hypothesis prims_addressable : Z.of_nat (length prims) + M < 2 ^ 64.

Lemma fill_blocks_returns accel _end : forall n i start m,
  0 <= start <= _end -> _end <= Z.of_nat (length prims) ->
  (n <> O -> start + (Z.of_nat n - 1) * M < _end) ->
  exists m' calls,
    fill_blocks M mulf frame scene prims accel _end n i start m
    = Some (m', Z.min (start + Z.of_nat n * M) _end, calls) /\
    length calls = n /\
    forall k, 0 <= k < Z.of_nat n ->
      calls !! Z.to_nat k = Some (nth_call M accel _end i start k).
Proof.
  induction n as [|n IH]; intros i start m Hs He Hn.
  - exists m, []. cbn [fill_blocks]. split; [| split; [reflexivity | intros; lia]].
    replace (Z.min (start + Z.of_nat 0 * M) _end) with start by lia. reflexivity.
  - cbn [fill_blocks].
    assert (Hlt : start < _end) by (specialize (Hn ltac:(discriminate)); nia).
    destruct (fill_returns M mulf frame scene prims M_range prims_addressable
                (accel + i * sizeof_BezierNi M) start _end m) as [m1 Hf]; [lia | lia |].
    rewrite Hf.
    destruct (IH (i + 1) (Z.min (start + M) _end) m1) as (m2 & calls & Hfb & Hlen & Hnth);
      [lia | lia | intros Hn0; specialize (Hn ltac:(discriminate)); nia |].
    rewrite Hfb. eexists m2, _. split; [| split].
    + replace (Z.min (Z.min (start + M) _end + Z.of_nat n * M) _end)
        with (Z.min (start + Z.of_nat (S n) * M) _end); [reflexivity |].
      destruct n as [|n']; [lia |].
      specialize (Hn ltac:(discriminate)). nia.
    + cbn [length]. rewrite Hlen. reflexivity.
    + intros k Hk. destruct (Z.eq_dec k 0) as [->|Hk0].
      * change (Z.to_nat 0) with 0%nat. cbn [lookup list_lookup].
        unfold nth_call. rewrite sizeof_BezierNi_eq.
        replace (i + 0) with i by lia. replace (start + 0 * M) with start by lia.
        replace ((0 + 1) * M) with M by lia. reflexivity.
      * replace (Z.to_nat k) with (S (Z.to_nat (k - 1))) by lia.
        cbn [lookup list_lookup]. rewrite Hnth by lia.
        f_equal. unfold nth_call.
        assert (Hm : Z.min (start + M) _end = start + M).
        { specialize (Hn ltac:(discriminate)). nia. }
        rewrite Hm.
        replace (i + 1 + (k - 1)) with (i + k) by lia.
        replace (start + M + (k - 1) * M) with (start + k * M) by lia.
        replace (start + M + (k - 1 + 1) * M) with (start + (k + 1) * M) by lia.
        reflexivity.
Qed.

(** C3 (amended): as long as the 64-bit size arithmetic does not wrap,
    [blocks] is the rounded-up quotient by [M] and [bytes] follows the
    size law; on a non-empty range inside the primitive array [createLeaf]
    returns a leaf, requests exactly [bytes] bytes, calls [fill] once per
    block, the [k]-th call on the block at [k * (21 + 25 M)] from the base
    with the primitives from [begin + k M], each call starting where the
    previous one stopped, the last block ending at the last requested
    byte, and returns [encodeLeaf] of the base and the block count; for
    [M = 4] and seven primitives there are 2 blocks of 121 and 96 bytes. *)
Theorem C3_leaf_partition (set : range) (m : memory) :
  0 <= r_begin set < r_end set ->
  r_end set <= Z.of_nat (length prims) ->
  leaf_bytes M (r_end set - r_begin set) < 2 ^ 64 ->
  let Ntotal := r_end set - r_begin set in
  let nb := ceil_div Ntotal M in
  (forall n, 1 <= n -> n + M - 1 < 2 ^ 64 -> leaf_bytes M n < 2 ^ 64 ->
     blocks M n = ceil_div n M /\ bytes M n = leaf_bytes M n /\
     n <= ceil_div n M * M /\ (ceil_div n M - 1) * M < n) /\
  (exists lf,
     createLeaf M mulf frame scene prims NodeRef encodeLeaf malloc1 byteAlignment set m
       = Some lf /\
     leaf_numbytes NodeRef lf = leaf_bytes M Ntotal /\
     leaf_accel NodeRef lf = malloc1 (leaf_bytes M Ntotal) byteAlignment /\
     length (leaf_calls NodeRef lf) = Z.to_nat nb /\
     (forall k, 0 <= k < nb ->
        leaf_calls NodeRef lf !! Z.to_nat k
          = Some (nth_call M (leaf_accel NodeRef lf) (r_end set) 0 (r_begin set) k)) /\
     Z.min (r_begin set + nb * M) (r_end set) = r_end set /\
     Layout.end_ (leaf_accel NodeRef lf + (nb - 1) * (21 + 25 * M)) (Ntotal - (nb - 1) * M)
       = leaf_accel NodeRef lf + leaf_bytes M Ntotal /\
     leaf_node NodeRef lf = encodeLeaf (leaf_accel NodeRef lf) nb) /\
  (blocks 4 7 = 2 /\ bytes 4 7 = (21 + 25 * 4) + (21 + 25 * 3)).
Proof.
  intros Hb He Hbytes Ntotal nb.
  assert (HNt : Ntotal = r_end set - r_begin set) by reflexivity.
  assert (Hnbdef : nb = ceil_div Ntotal M) by reflexivity.
  clearbody nb. clearbody Ntotal. rewrite <- HNt in Hbytes.
  assert (HM : 0 < M) by lia.
  split; [| split; [| split; reflexivity]].
  - intros n Hn Hw Hby.
    split; [apply blocks_exact; lia |].
    split; [apply bytes_exact; lia |].
    apply ceil_div_least; lia.
  - assert (Hsize : range_size set = Ntotal).
    { rewrite HNt. unfold range_size. apply wrap64_small. lia. }
    assert (Hblocks : blocks M Ntotal = nb) by (rewrite Hnbdef; apply blocks_exact; lia).
    assert (Hbyt : bytes M Ntotal = leaf_bytes M Ntotal) by (apply bytes_exact; lia).
    destruct (ceil_div_least Ntotal M HM ltac:(lia)) as [Hup Hlow].
    rewrite <- Hnbdef in Hup, Hlow.
    assert (Hnb : 1 <= nb) by nia.
    unfold createLeaf. rewrite Hsize, Hblocks, Hbyt.
    destruct (fill_blocks_returns (malloc1 (leaf_bytes M Ntotal) byteAlignment)
                (r_end set) (Z.to_nat nb) 0 (r_begin set) m)
      as (m' & calls & Hfb & Hlen & Hnth); [lia | lia | intros _; nia |].
    rewrite Hfb. eexists. split; [reflexivity |]. cbn [leaf_numbytes leaf_accel
      leaf_calls leaf_node].
    split; [reflexivity |]. split; [reflexivity |]. split; [exact Hlen |].
    split; [intros k Hk; apply Hnth; lia |].
    split; [lia |]. split; [| reflexivity].
    unfold Layout.end_, leaf_bytes. subst nb. unfold ceil_div in *.
    pose proof (Z.div_mod Ntotal M ltac:(lia)) as Hdm.
    pose proof (Z.mod_pos_bound Ntotal M HM) as Hmb.
    destruct (Ntotal mod M =? 0) eqn:E.
    + apply Z.eqb_eq in E. rewrite E in *. cbn [Z.ltb Z.compare]. nia.
    + apply Z.eqb_neq in E.
      assert (Hpos : (0 <? Ntotal mod M) = true) by (apply Z.ltb_lt; lia).
      rewrite Hpos. nia.
Qed.

End LeafCreation.

Lemma C3_leaf_partition_witness :
  exists lf,
    createLeaf (basis := BezierBasis) 4 Rmult frame_of_axis line_scene line_prims
      (Z * Z)%type pair (fun _ _ => 4096) 16 (mkRange 0 7) ∅ = Some lf /\
    leaf_numbytes _ lf = 217 /\
    leaf_calls _ lf !! 1%nat = Some (mkFillCall (4096 + 121) 4 7 7).
Proof.
  destruct (C3_leaf_partition (basis := BezierBasis) 4 Rmult frame_of_axis line_scene
              line_prims (Z * Z)%type pair (fun _ _ => 4096) 16
              ltac:(lia) ltac:(cbn; lia) (mkRange 0 7) ∅
              ltac:(cbn; lia) ltac:(cbn; lia) ltac:(vm_compute; reflexivity))
    as (_ & (lf & Hc & Hn & Ha & _ & Hk & _) & _).
  exists lf. split; [exact Hc |]. split; [exact Hn |].
  change (1%nat) with (Z.to_nat 1).
  rewrite (Hk 1) by (vm_compute; split; [discriminate | reflexivity]).
  rewrite Ha. reflexivity.
Defined.

(** C3, as stated, fails at the largest 64-bit count: the sum [N + M - 1]
    wraps and [blocks] returns 0. *)
Lemma C3_blocks_wrap_counterexample :
  1 <= 2 ^ 64 - 1 /\
  blocks 4 (2 ^ 64 - 1) = 0 /\
  ceil_div (2 ^ 64 - 1) 4 = 2 ^ 62 /\
  blocks 4 (2 ^ 64 - 1) <> ceil_div (2 ^ 64 - 1) 4.
Proof.
  split; [lia |]. split; [reflexivity |]. split; [reflexivity |].
  vm_compute. discriminate.
Qed.

(** ** Rounding to integers *)

Section Rounding.
Local Open Scope R_scope.

Lemma Zfloor_bounds r : IZR (Zfloor r) <= r < IZR (Zfloor r) + 1.
Proof.
  unfold Zfloor. rewrite minus_IZR. destruct (archimed r) as [H1 H2]. lra.
Qed.

Lemma Zfloor_unique r (k : Z) : IZR k <= r < IZR k + 1 -> Zfloor r = k.
Proof.
  intros [H1 H2]. pose proof (Zfloor_bounds r) as [H3 H4].
  assert (Ha : (Zfloor r < k + 1)%Z).
  { apply lt_IZR. rewrite plus_IZR. lra. }
  assert (Hb : (k < Zfloor r + 1)%Z).
  { apply lt_IZR. rewrite plus_IZR. lra. }
  lia.
Qed.

Lemma Zfloor_IZR (k : Z) : Zfloor (IZR k) = k.
Proof. apply Zfloor_unique. lra. Qed.

Lemma Zceil_bounds r : IZR (Zceil r) - 1 < r <= IZR (Zceil r).
Proof.
  unfold Zceil. rewrite opp_IZR. pose proof (Zfloor_bounds (- r)). lra.
Qed.

Lemma Zceil_IZR (k : Z) : Zceil (IZR k) = k.
Proof. unfold Zceil. rewrite <- opp_IZR, Zfloor_IZR. lia. Qed.

Lemma Ztrunc_IZR (k : Z) : Ztrunc (IZR k) = k.
Proof. unfold Ztrunc. destruct (Rlt_dec _ _); [apply Zceil_IZR | apply Zfloor_IZR]. Qed.

Lemma Zfloor_le r (k : Z) : IZR k <= r -> (k <= Zfloor r)%Z.
Proof.
  intros H. pose proof (Zfloor_bounds r) as [_ H2].
  assert (Ha : (k < Zfloor r + 1)%Z) by (apply lt_IZR; rewrite plus_IZR; lra).
  lia.
Qed.

Lemma Zceil_ge r (k : Z) : r <= IZR k -> (Zceil r <= k)%Z.
Proof.
  intros H. pose proof (Zceil_bounds r) as [H1 _].
  assert (Ha : (Zceil r - 1 < k)%Z) by (apply lt_IZR; rewrite minus_IZR; lra).
  lia.
Qed.

(** Truncation moves toward zero. *)
Lemma Ztrunc_toward_zero r :
  (0 <= r -> 0 <= IZR (Ztrunc r) <= r) /\ (r <= 0 -> r <= IZR (Ztrunc r) <= 0).
Proof.
  unfold Ztrunc. destruct (Rlt_dec r 0) as [Hneg|Hpos].
  - split; [lra |]. intros _. pose proof (Zceil_bounds r) as [_ H].
    split; [exact H |]. apply IZR_le. apply (Zceil_ge r 0). lra.
  - split.
    + intros _. pose proof (Zfloor_bounds r) as [H _]. split; [| exact H].
      apply IZR_le. apply (Zfloor_le r 0). lra.
    + intros H0. assert (r = 0) by lra. subst r.
      change 0 with (IZR 0). rewrite Zfloor_IZR. lra.
Qed.

Lemma clamp_IZR (a lo hi : Z) :
  clamp (IZR a) (IZR lo) (IZR hi) = IZR (Z.max (Z.min a hi) lo).
Proof.
  unfold clamp, Rmax, Rmin.
  destruct (Rle_dec (IZR a) (IZR hi)) as [H1|H1].
  - rewrite Z.min_l by (apply le_IZR; exact H1).
    destruct (Rle_dec (IZR a) (IZR lo)) as [H2|H2].
    + rewrite Z.max_r by (apply le_IZR; exact H2). reflexivity.
    + rewrite Z.max_l; [reflexivity |].
      apply Z.lt_le_incl, lt_IZR. lra.
  - assert (hi < a)%Z by (apply lt_IZR; lra).
    rewrite Z.min_r by lia.
    destruct (Rle_dec (IZR hi) (IZR lo)) as [H2|H2].
    + rewrite Z.max_r by (apply le_IZR; exact H2). reflexivity.
    + rewrite Z.max_l; [reflexivity |].
      apply Z.lt_le_incl, lt_IZR. lra.
Qed.

Lemma wrap_signed_small w v :
  (0 < w)%Z -> (- 2 ^ (w - 1) <= v < 2 ^ (w - 1))%Z -> wrap_signed w v = v.
Proof.
  intros Hw Hv. unfold wrap_signed.
  assert (Hp : (2 ^ w = 2 * 2 ^ (w - 1))%Z).
  { replace w with (Z.succ (w - 1)) at 1 by lia. apply Z.pow_succ_r. lia. }
  rewrite Z.mod_small by lia. lia.
Qed.

Lemma wrap_signed_range w v :
  (0 < w)%Z -> (- 2 ^ (w - 1) <= wrap_signed w v < 2 ^ (w - 1))%Z.
Proof.
  intros Hw. unfold wrap_signed.
  assert (Hp : (2 ^ w = 2 * 2 ^ (w - 1))%Z).
  { replace w with (Z.succ (w - 1)) at 1 by lia. apply Z.pow_succ_r. lia. }
  assert (0 < 2 ^ (w - 1))%Z by (apply Z.pow_pos_nonneg; lia).
  pose proof (Z.mod_pos_bound (v + 2 ^ (w - 1)) (2 ^ w) ltac:(lia)). lia.
Qed.

(** The stored lower bound is the clamped floor, as an integer. *)
Lemma quantize_lower_eq l :
  quantize_lower l = Z.max (Z.min (Zfloor l) 32767) (-32767).
Proof.
  unfold quantize_lower, floor.
  rewrite (clamp_IZR (Zfloor l) (-32767) 32767), Ztrunc_IZR.
  apply wrap_signed_small; lia.
Qed.

Lemma quantize_upper_eq u :
  quantize_upper u = Z.max (Z.min (Zceil u) 32767) (-32767).
Proof.
  unfold quantize_upper, ceil.
  rewrite (clamp_IZR (Zceil u) (-32767) 32767), Ztrunc_IZR.
  apply wrap_signed_small; lia.
Qed.





End Rounding.

(** ** Loads after stores *)

Section Storage.

Implicit Types (m : memory) (vs : list memval).

Lemma store_vals_lookup_out vs : forall a m a',
  a' < a \/ a + Z.of_nat (length vs) <= a' ->
  store_vals a vs m !! a' = m !! a'.
Proof.
  induction vs as [|v vs IH]; intros a m a' H; [reflexivity |].
  cbn [store_vals]. cbn [length] in H.
  rewrite IH by lia. apply lookup_insert_ne. lia.
Qed.

Lemma store_vals_lookup_in vs : forall a m (k : nat) v,
  vs !! k = Some v -> store_vals a vs m !! (a + Z.of_nat k) = Some v.
Proof.
  induction vs as [|w vs IH]; intros a m k v H; [discriminate |].
  cbn [store_vals]. destruct k as [|k].
  - cbn in H. injection H as ->.
    rewrite store_vals_lookup_out by lia.
    replace (a + Z.of_nat 0) with a by lia. apply lookup_insert_eq.
  - cbn in H. replace (a + Z.of_nat (S k)) with (a + 1 + Z.of_nat k) by lia.
    apply IH. exact H.
Qed.

Lemma load_vals_ext n : forall a m m',
  (forall k, 0 <= k < Z.of_nat n -> m' !! (a + k) = m !! (a + k)) ->
  load_vals a n m' = load_vals a n m.
Proof.
  induction n as [|n IH]; intros a m m' H; [reflexivity |].
  cbn [load_vals].
  assert (H0 : m' !! a = m !! a).
  { pose proof (H 0 ltac:(lia)) as H0. rewrite Z.add_0_r in H0. exact H0. }
  rewrite H0.
  rewrite (IH (a + 1) m m'); [reflexivity |].
  intros k Hk. replace (a + 1 + k) with (a + (1 + k)) by lia. apply H. lia.
Qed.

Lemma load_vals_Some vs : forall a m,
  (forall (k : nat) v, vs !! k = Some v -> m !! (a + Z.of_nat k) = Some v) ->
  load_vals a (length vs) m = Some vs.
Proof.
  induction vs as [|w vs IH]; intros a m H; [reflexivity |].
  cbn [length load_vals].
  pose proof (H 0%nat w eq_refl) as H0.
  replace (a + Z.of_nat 0) with a in H0 by lia. rewrite H0.
  rewrite IH; [reflexivity |].
  intros k v Hk. replace (a + 1 + Z.of_nat k) with (a + Z.of_nat (S k)) by lia.
  apply H. exact Hk.
Qed.

Lemma load_vals_store_same a vs m :
  load_vals a (length vs) (store_vals a vs m) = Some vs.
Proof. apply load_vals_Some. intros k v H. apply store_vals_lookup_in. exact H. Qed.

Lemma load_vals_store_out a' n a vs m :
  a' + Z.of_nat n <= a \/ a + Z.of_nat (length vs) <= a' ->
  load_vals a' n (store_vals a vs m) = load_vals a' n m.
Proof.
  intros H. apply load_vals_ext. intros k Hk.
  apply store_vals_lookup_out. lia.
Qed.

Lemma length_le_bytes n : forall v, length (le_bytes n v) = n.
Proof. induction n as [|n IH]; intros v; cbn; [reflexivity | rewrite IH; reflexivity]. Qed.

Lemma le_value_le_bytes n : forall v,
  le_value (le_bytes n v) = Some (v mod 256 ^ Z.of_nat n).
Proof.
  induction n as [|n IH]; intros v.
  - cbn. rewrite Z.mod_1_r. reflexivity.
  - cbn [le_bytes le_value]. rewrite IH. f_equal.
    rewrite Nat2Z.inj_succ, Z.pow_succ_r by lia.
    symmetry. apply Z.rem_mul_r; [lia | apply Z.pow_pos_nonneg; lia].
Qed.

Lemma wrap_signed_mod w v : 0 < w -> wrap_signed w (v mod 2 ^ w) = wrap_signed w v.
Proof.
  intros Hw. unfold wrap_signed. f_equal.
  rewrite Zplus_mod_idemp_l. reflexivity.
Qed.

(** Typed loads of the cell just stored. *)

Lemma load_le_store_same n a v m :
  load_unsigned n a (store_vals a (le_bytes n v) m) = Some (v mod 256 ^ Z.of_nat n).
Proof.
  unfold load_unsigned.
  rewrite <- (length_le_bytes n v) at 1.
  rewrite load_vals_store_same. apply le_value_le_bytes.
Qed.

Lemma load_uchar_store a v m : 0 <= v < 256 ->
  load_uchar a (store_uchar a v m) = Some v.
Proof.
  intros H. unfold load_uchar, store_uchar. rewrite load_le_store_same.
  f_equal. apply Z.mod_small. cbn. lia.
Qed.

Lemma load_uint_store a v m : is_u32 v ->
  load_uint a (store_uint a v m) = Some v.
Proof.
  intros H. unfold load_uint, store_uint. rewrite load_le_store_same.
  f_equal. apply Z.mod_small. exact H.
Qed.

Lemma load_char_store a v m : -128 <= v < 128 ->
  load_char a (store_char a v m) = Some v.
Proof.
  intros H. unfold load_char, store_char. rewrite load_le_store_same. cbn [option_map].
  f_equal. change (256 ^ Z.of_nat 1) with (2 ^ 8).
  rewrite wrap_signed_mod by lia. apply wrap_signed_small; cbn; lia.
Qed.

Lemma load_short_store a v m : -32768 <= v < 32768 ->
  load_short a (store_short a v m) = Some v.
Proof.
  intros H. unfold load_short, store_short. rewrite load_le_store_same. cbn [option_map].
  f_equal. change (256 ^ Z.of_nat 2) with (2 ^ 16).
  rewrite wrap_signed_mod by lia. apply wrap_signed_small; cbn; lia.
Qed.

Lemma load_float_store a f m : load_float a (store_float a f m) = Some f.
Proof.
  unfold load_float, store_float.
  change 4%nat with (length (float_parts f)).
  rewrite load_vals_store_same. cbn [float_parts float_value].
  destruct (Req_dec_T f f) as [_|Hn]; [reflexivity | congruence].
Qed.

Lemma quantize_char_range c : -128 <= quantize_char c < 128.
Proof. unfold quantize_char, to_char. apply (wrap_signed_range 8). lia. Qed.

Lemma quantize_lower_range l : -32768 <= quantize_lower l < 32768.
Proof. unfold quantize_lower, to_short. apply (wrap_signed_range 16). lia. Qed.

Lemma quantize_upper_range u : -32768 <= quantize_upper u < 32768.
Proof. unfold quantize_upper, to_short. apply (wrap_signed_range 16). lia. Qed.

End Storage.

(** ** The stores of [fill] as one image *)

Section Writes.

Implicit Types (m : memory) (w : write) (ws : list write).

Lemma apply_writes_app ws1 ws2 m :
  apply_writes (ws1 ++ ws2) m = apply_writes ws2 (apply_writes ws1 m).
Proof. unfold apply_writes. apply fold_left_app. Qed.

Lemma apply_writes_frame ws : forall m a n,
  Forall (fun w => a + Z.of_nat n <= fst w \/ w_stop w <= a) ws ->
  load_vals a n (apply_writes ws m) = load_vals a n m.
Proof.
  induction ws as [|w ws IH]; intros m a n H; [reflexivity |].
  inversion H as [|? ? Hw Hws]; subst.
  change (apply_writes (w :: ws) m) with (apply_writes ws (store_vals (fst w) (snd w) m)).
  rewrite IH by exact Hws.
  apply load_vals_store_out. exact Hw.
Qed.

(** Writes at pairwise disjoint places are all read back. *)
Lemma apply_writes_holds ws : forall m,
  ForallOrdPairs w_disjoint ws -> Forall (holds (apply_writes ws m)) ws.
Proof.
  induction ws as [|w ws IH]; intros m H; [constructor |].
  inversion H as [|? ? Hw Hws]; subst.
  change (apply_writes (w :: ws) m) with (apply_writes ws (store_vals (fst w) (snd w) m)).
  constructor; [| apply IH; exact Hws].
  unfold holds. rewrite apply_writes_frame.
  - apply load_vals_store_same.
  - eapply Forall_impl; [exact Hw |]. intros w' Hd. unfold w_disjoint, w_stop in *.
    cbn beta. lia.
Qed.

Lemma ForallOrdPairs_app_intro {A} (R : A -> A -> Prop) (l1 l2 : list A) :
  ForallOrdPairs R l1 -> ForallOrdPairs R l2 ->
  Forall (fun a => Forall (R a) l2) l1 ->
  ForallOrdPairs R (l1 ++ l2).
Proof.
  induction l1 as [|a l1 IH]; intros H1 H2 H12; [exact H2 |].
  inversion H1 as [|? ? Ha Hl1]; subst.
  inversion H12 as [|? ? Ha2 Hl12]; subst.
  cbn [app]. constructor.
  - apply Forall_app. split; assumption.
  - apply IH; assumption.
Qed.

End Writes.

Section BlockContents.

Context {basis : CurveBasis}.
Variable M : Z.
Variable mulf : R -> R -> R.
Variable frame : Vec3fa -> LinearSpace3fa.
Variable scene : Scene.
Variable prims : list PrimRef.

Hypothesis M_range : 1 <= M <= 255.
Hypothesis prims_addressable : Z.of_nat (length prims) + M < 2 ^ 64.

Lemma store_prim_image this N i space3 b p m :
  store_prim this N i space3 b p m = apply_writes (slot_image this N i space3 b p) m.
Proof. reflexivity. Qed.

Lemma slice_nil begin : slice prims begin 0 = [].
Proof. reflexivity. Qed.

Lemma slice_cons begin n p :
  0 <= begin -> 0 < n -> prims !! Z.to_nat begin = Some p ->
  slice prims begin n = p :: slice prims (begin + 1) (n - 1).
Proof.
  intros Hb Hn Hp. unfold slice.
  rewrite (drop_S prims p (Z.to_nat begin) Hp).
  replace (Z.to_nat n) with (S (Z.to_nat (n - 1))) by lia.
  cbn [take]. replace (Z.to_nat (begin + 1)) with (S (Z.to_nat begin)) by lia.
  reflexivity.
Qed.

Lemma slice_length begin n :
  0 <= begin -> 0 <= n -> begin + n <= Z.of_nat (length prims) ->
  Z.of_nat (length (slice prims begin n)) = n.
Proof.
  intros Hb Hn Hl. unfold slice. rewrite length_take, length_drop. lia.
Qed.

Lemma encode_loop_image this N loffset lscale end_ : forall n i begin m,
  0 <= begin <= end_ -> end_ <= Z.of_nat (length prims) ->
  end_ - begin <= Z.of_nat n ->
  encode_loop mulf frame scene prims this N loffset lscale end_ n i begin m
  = Some (apply_writes
            (slots_image mulf frame scene this N loffset lscale i
               (slice prims begin (end_ - begin))) m, end_).
Proof.
  induction n as [|n IH]; intros i begin m Hb He Hn.
  - cbn [encode_loop]. replace (end_ - begin) with 0 by lia.
    rewrite slice_nil. cbn. do 2 f_equal. lia.
  - cbn [encode_loop]. destruct (begin <? end_) eqn:E.
    + apply Z.ltb_lt in E.
      destruct (prims_lookup prims begin) as [p Hp]; [lia |].
      rewrite Hp, (computeAlignedSpace_range1 frame scene prims begin p) by (auto; lia).
      rewrite wrap64_small by lia.
      rewrite IH by lia.
      rewrite (slice_cons begin (end_ - begin) p) by (auto; lia).
      cbn [slots_image]. rewrite apply_writes_app, store_prim_image.
      replace (end_ - (begin + 1)) with (end_ - begin - 1) by lia.
      reflexivity.
    + apply Z.ltb_ge in E. replace (end_ - begin) with 0 by lia.
      rewrite slice_nil. cbn. do 2 f_equal. lia.
Qed.

Lemma bounds_loop_slice begin : forall n i acc,
  0 <= begin -> 0 <= i ->
  begin + i + Z.of_nat n <= Z.of_nat (length prims) ->
  bounds_loop scene prims begin i n acc
  = Some (fold_left
            (fun acc p => bbox_extend acc (bounds (scene (geomID p)) (primID p)))
            (slice prims (begin + i) (Z.of_nat n)) acc).
Proof.
  induction n as [|n IH]; intros i acc Hb Hi Hlen.
  - reflexivity.
  - cbn [bounds_loop]. rewrite wrap64_small by lia.
    destruct (prims_lookup prims (begin + i)) as [p Hp]; [lia |].
    rewrite Hp, IH by lia.
    rewrite (slice_cons (begin + i) (Z.of_nat (S n)) p) by (auto; lia).
    cbn [fold_left].
    replace (begin + (i + 1)) with (begin + i + 1) by lia.
    replace (Z.of_nat (S n) - 1) with (Z.of_nat n) by lia.
    reflexivity.
Qed.

(** [fill] on a slice inside the array returns, advances [begin] to the
    end of the slice and leaves the image of the block in storage. *)
Lemma fill_image this begin _end m :
  0 <= begin < _end -> _end <= Z.of_nat (length prims) ->
  let N := Z.min M (_end - begin) in
  let ps := slice prims begin N in
  exists p0 bb,
    prims !! Z.to_nat begin = Some p0 /\
    slice_bounds scene ps = Some bb /\
    fill M mulf frame scene prims this begin _end m
    = Some (apply_writes
              (header_image this N (geomID p0) (lower bb) (block_scale bb)
               ++ slots_image mulf frame scene this N (lower bb) (block_scale bb) 0 ps) m,
            begin + N).
Proof.
  intros Hb He N ps.
  assert (HN : N = Z.min M (_end - begin)) by reflexivity.
  assert (Hps : ps = slice prims begin N) by reflexivity.
  clearbody ps. clearbody N.
  destruct (prims_lookup prims begin) as [p0 Hp0]; [lia |].
  destruct (bounds_loop_returns M scene prims M_range prims_addressable begin (Z.to_nat N) 0 None)
    as [bb Hbb]; try lia.
  exists p0, bb. split; [exact Hp0 |].
  assert (Hsb : slice_bounds scene ps = Some bb).
  { rewrite bounds_loop_slice in Hbb by lia.
    injection Hbb as Hbb. unfold slice_bounds. rewrite Hps.
    replace (begin + 0) with begin in Hbb by lia.
    rewrite Z2Nat.id in Hbb by lia. exact Hbb. }
  split; [exact Hsb |].
  unfold fill. rewrite (fill_count M prims M_range prims_addressable begin _end Hb He).
  rewrite <- HN. rewrite (wrap64_small (begin + M)) by lia.
  rewrite Hp0, Hbb.
  rewrite encode_loop_image by lia.
  rewrite apply_writes_app.
  replace (Z.min (begin + M) _end) with (begin + N) by lia.
  replace (begin + N - begin) with N by lia.
  rewrite <- Hps. reflexivity.
Qed.

End BlockContents.

(** ** The fields of a block do not overlap *)

Section Disjointness.

Context {basis : CurveBasis}.
Variable mulf : R -> R -> R.
Variable frame : Vec3fa -> LinearSpace3fa.
Variable scene : Scene.
Variables this N : Z.

Lemma header_image_disjoint g o s :
  0 < N -> ForallOrdPairs w_disjoint (header_image this N g o s).
Proof. intros HN. unfold header_image. split_list_goal; solve_disjoint. Qed.

Lemma slot_image_disjoint i space3 b p :
  0 <= i < N -> ForallOrdPairs w_disjoint (slot_image this N i space3 b p).
Proof. intros Hi. unfold slot_image. split_list_goal; solve_disjoint. Qed.

(** A property of every write of every slot holds of the whole image of
    the slots. *)
Lemma slots_image_Forall (P : write -> Prop) o s ps : forall i,
  (forall j p, i <= j < i + Z.of_nat (length ps) ->
     Forall P (slot_image this N j (prim_space3 mulf frame scene o s p)
                 (prim_box mulf frame scene o s p) p)) ->
  Forall P (slots_image mulf frame scene this N o s i ps).
Proof.
  induction ps as [|p ps IH]; intros i H; [constructor |].
  cbn [slots_image]. apply Forall_app. split.
  - apply H. cbn [length]. lia.
  - apply IH. intros j q Hj. apply H. cbn [length]. lia.
Qed.

(** Conversely the image of the slots contains the image of each slot. *)
Lemma slots_image_lookup (P : write -> Prop) o s ps : forall i (k : nat) p,
  ps !! k = Some p ->
  Forall P (slots_image mulf frame scene this N o s i ps) ->
  Forall P (slot_image this N (i + Z.of_nat k) (prim_space3 mulf frame scene o s p)
              (prim_box mulf frame scene o s p) p).
Proof.
  induction ps as [|q ps IH]; intros i k p Hk H; [discriminate |].
  cbn [slots_image] in H. apply Forall_app in H as [H1 H2].
  destruct k as [|k].
  - cbn in Hk. injection Hk as ->. replace (i + Z.of_nat 0) with i by lia. exact H1.
  - cbn in Hk. replace (i + Z.of_nat (S k)) with (i + 1 + Z.of_nat k) by lia.
    apply IH; assumption.
Qed.

Lemma slots_image_disjoint o s ps : forall i,
  0 <= i -> i + Z.of_nat (length ps) <= N ->
  ForallOrdPairs w_disjoint (slots_image mulf frame scene this N o s i ps).
Proof.
  induction ps as [|p ps IH]; intros i Hi Hl; [constructor |].
  cbn [slots_image length] in *. apply ForallOrdPairs_app_intro.
  - apply slot_image_disjoint. lia.
  - apply IH; lia.
  - assert (Hall : forall j q, i + 1 <= j < i + 1 + Z.of_nat (length ps) ->
        Forall (fun w' => Forall (fun w => w_disjoint w w')
                  (slot_image this N i (prim_space3 mulf frame scene o s p)
                     (prim_box mulf frame scene o s p) p))
               (slot_image this N j (prim_space3 mulf frame scene o s q)
                  (prim_box mulf frame scene o s q) q)).
    { intros j q Hj. unfold slot_image. split_list_goal; solve_disjoint. }
    pose proof (slots_image_Forall _ o s ps (i + 1) Hall) as Hsl.
    rewrite Forall_forall. intros w Hw. rewrite Forall_forall. intros w' Hw'.
    rewrite Forall_forall in Hsl. specialize (Hsl w' Hw').
    rewrite Forall_forall in Hsl. apply Hsl. exact Hw.
Qed.

Lemma block_image_disjoint g o s ps :
  0 < N -> Z.of_nat (length ps) <= N ->
  ForallOrdPairs w_disjoint
    (header_image this N g o s ++ slots_image mulf frame scene this N o s 0 ps).
Proof.
  intros HN Hl. apply ForallOrdPairs_app_intro.
  - apply header_image_disjoint. exact HN.
  - apply slots_image_disjoint; lia.
  - assert (Hall : forall j q, 0 <= j < 0 + Z.of_nat (length ps) ->
        Forall (fun w' => Forall (fun w => w_disjoint w w') (header_image this N g o s))
               (slot_image this N j (prim_space3 mulf frame scene o s q)
                  (prim_box mulf frame scene o s q) q)).
    { intros j q Hj. unfold header_image, slot_image. split_list_goal; solve_disjoint. }
    pose proof (slots_image_Forall _ o s ps 0 Hall) as Hsl.
    rewrite Forall_forall. intros w Hw. rewrite Forall_forall. intros w' Hw'.
    rewrite Forall_forall in Hsl. specialize (Hsl w' Hw').
    rewrite Forall_forall in Hsl. apply Hsl. exact Hw.
Qed.

End Disjointness.

(** ** Reading a block back *)

Section Decoding.

Implicit Types (m : memory).

Lemma holds_load_unsigned n a v m :
  holds m (a, le_bytes n v) -> load_unsigned n a m = Some (v mod 256 ^ Z.of_nat n).
Proof.
  unfold holds, load_unsigned. cbn [fst snd]. rewrite length_le_bytes.
  intros ->. apply le_value_le_bytes.
Qed.

Lemma holds_load_uchar a v m :
  holds m (a, le_bytes 1 v) -> 0 <= v < 256 -> load_uchar a m = Some v.
Proof.
  intros H Hv. unfold load_uchar. rewrite (holds_load_unsigned _ _ _ _ H).
  f_equal. apply Z.mod_small. cbn. lia.
Qed.

Lemma holds_load_uint a v m :
  holds m (a, le_bytes 4 v) -> is_u32 v -> load_uint a m = Some v.
Proof.
  intros H Hv. unfold load_uint. rewrite (holds_load_unsigned _ _ _ _ H).
  f_equal. apply Z.mod_small. exact Hv.
Qed.

Lemma holds_load_char a v m :
  holds m (a, le_bytes 1 v) -> -128 <= v < 128 -> load_char a m = Some v.
Proof.
  intros H Hv. unfold load_char. rewrite (holds_load_unsigned _ _ _ _ H).
  cbn [option_map]. f_equal. change (256 ^ Z.of_nat 1) with (2 ^ 8).
  rewrite wrap_signed_mod by lia. apply wrap_signed_small; cbn; lia.
Qed.

Lemma holds_load_short a v m :
  holds m (a, le_bytes 2 v) -> -32768 <= v < 32768 -> load_short a m = Some v.
Proof.
  intros H Hv. unfold load_short. rewrite (holds_load_unsigned _ _ _ _ H).
  cbn [option_map]. f_equal. change (256 ^ Z.of_nat 2) with (2 ^ 16).
  rewrite wrap_signed_mod by lia. apply wrap_signed_small; cbn; lia.
Qed.

Lemma holds_load_float a f m :
  holds m (a, float_parts f) -> load_float a m = Some f.
Proof.
  unfold holds, load_float. cbn [fst snd length float_parts]. intros ->.
  cbn [float_value float_parts]. destruct (Req_dec_T f f) as [_|Hn]; [reflexivity | congruence].
Qed.

(** What a block holding its header reads back. *)
Lemma header_decodes this N g o s m :
  Forall (holds m) (header_image this N g o s) ->
  0 <= N < 256 -> is_u32 g ->
  decode_count this m = Some N /\
  decode_geomID this N m = Some g /\
  decode_offset this N m = Some o /\
  decode_scale this N m = Some s.
Proof.
  intros H HN Hg. unfold header_image in H.
  repeat match goal with
         | H : Forall _ (_ :: _) |- _ => apply Forall_cons in H; destruct H as [? H]
         end.
  split; [apply holds_load_uchar; assumption |].
  split; [apply holds_load_uint; assumption |].
  split; [| apply holds_load_float; assumption].
  unfold decode_offset.
  rewrite (holds_load_float _ (x o)), (holds_load_float _ (y o)),
    (holds_load_float _ (z o)) by assumption.
  destruct o; reflexivity.
Qed.

(** What a block holding slot [i] reads back from it. *)
Lemma slot_decodes this N i space3 b p m :
  Forall (holds m) (slot_image this N i space3 b p) ->
  (is_u32 (primID p) -> decode_primID this N i m = Some (primID p)) /\
  (forall a c, decode_basis a c this N i m
               = Some (quantize_char (component c (frame_axis a space3)))) /\
  (forall a, decode_lower a this N i m = Some (quantize_lower (component a (lower b)))) /\
  (forall a, decode_upper a this N i m = Some (quantize_upper (component a (upper b)))).
Proof.
  intros H. unfold slot_image in H.
  repeat match goal with
         | H : Forall _ (_ :: _) |- _ => apply Forall_cons in H; destruct H as [? H]
         end.
  split; [intros Hp; apply holds_load_uint; assumption |].
  split; [| split].
  - intros a c. unfold decode_basis.
    destruct a, c; cbn [basis_ptr component frame_axis];
      (apply holds_load_char; [assumption | apply quantize_char_range]).
  - intros a. unfold decode_lower.
    destruct a; cbn [lower_ptr component];
      (apply holds_load_short; [assumption | apply quantize_lower_range]).
  - intros a. unfold decode_upper.
    destruct a; cbn [upper_ptr component];
      (apply holds_load_short; [assumption | apply quantize_upper_range]).
Qed.

End Decoding.

(** ** What [fill] leaves in a block *)

Section FillContents.

Context {basis : CurveBasis}.
Variable M : Z.
Variable mulf : R -> R -> R.
Variable frame : Vec3fa -> LinearSpace3fa.
Variable scene : Scene.
Variable prims : list PrimRef.

Hypothesis M_range : 1 <= M <= 255.
Hypothesis prims_addressable : Z.of_nat (length prims) + M < 2 ^ 64.

Lemma slice_lookup begin n (k : Z) :
  0 <= begin -> 0 <= k < n ->
  slice prims begin n !! Z.to_nat k = prims !! Z.to_nat (begin + k).
Proof.
  intros Hb Hk. unfold slice.
  rewrite lookup_take_lt by lia. rewrite lookup_drop. f_equal. lia.
Qed.

(** After [fill] the block holds its header and, for every primitive of
    the slice, the slot of that primitive. *)
Lemma fill_holds this begin _end m :
  0 <= begin < _end -> _end <= Z.of_nat (length prims) ->
  let N := Z.min M (_end - begin) in
  exists m' p0 bb,
    prims !! Z.to_nat begin = Some p0 /\
    slice_bounds scene (slice prims begin N) = Some bb /\
    fill M mulf frame scene prims this begin _end m = Some (m', begin + N) /\
    Forall (holds m') (header_image this N (geomID p0) (lower bb) (block_scale bb)) /\
    forall i p, 0 <= i < N -> prims !! Z.to_nat (begin + i) = Some p ->
      Forall (holds m')
        (slot_image this N i
           (prim_space3 mulf frame scene (lower bb) (block_scale bb) p)
           (prim_box mulf frame scene (lower bb) (block_scale bb) p) p).
Proof.
  intros Hb He N.
  destruct (fill_image M mulf frame scene prims M_range prims_addressable this begin _end m Hb He)
    as (p0 & bb & Hp0 & Hbb & Hfill).
  fold N in Hbb, Hfill.
  assert (HN : 1 <= N <= M) by (unfold N; lia).
  assert (Hlen : Z.of_nat (length (slice prims begin N)) = N)
    by (apply slice_length; lia).
  eexists _, p0, bb. split; [exact Hp0 |]. split; [exact Hbb |].
  split; [exact Hfill |].
  pose proof (apply_writes_holds _ m
                (block_image_disjoint mulf frame scene this N (geomID p0) (lower bb)
                   (block_scale bb) (slice prims begin N) ltac:(lia) ltac:(lia))) as Hall.
  apply Forall_app in Hall as [Hhdr Hslots].
  split; [exact Hhdr |].
  intros i p Hi Hp.
  rewrite <- (slice_lookup begin N i) in Hp by lia.
  pose proof (slots_image_lookup mulf frame scene this N _ _ _ _ 0 _ _ Hp Hslots) as Hs.
  replace (0 + Z.of_nat (Z.to_nat i)) with i in Hs by lia. exact Hs.
Qed.

End FillContents.

(** ** Round trip of the identifiers *)

(** C8: after [fill] on a slice of primitives of one geometry the stored
    count is [min M (end - begin)], the stored geometry id is the shared
    geometry id, and the primitive id stored at index [i] is the id of the
    [i]-th primitive of the slice; reading the block with the same count
    returns these values. *)
Theorem C8_fill_round_trip {basis : CurveBasis} (M : Z)
    (mulf : R -> R -> R) (frame : Vec3fa -> LinearSpace3fa) (scene : Scene)
    (prims : list PrimRef) (this begin _end g : Z) (m : memory) :
  1 <= M <= 255 ->
  Z.of_nat (length prims) + M < 2 ^ 64 ->
  Forall wf_PrimRef prims ->
  0 <= begin < _end -> _end <= Z.of_nat (length prims) ->
  Forall (fun p => geomID p = g) (slice prims begin (_end - begin)) ->
  let N := Z.min M (_end - begin) in
  exists m',
    fill M mulf frame scene prims this begin _end m = Some (m', begin + N) /\
    decode_count this m' = Some N /\
    decode_geomID this N m' = Some g /\
    forall i, 0 <= i < N ->
      exists p, prims !! Z.to_nat (begin + i) = Some p /\
                decode_primID this N i m' = Some (primID p).
Proof.
  intros HM Hlen Hwf Hb He Hg N.
  destruct (fill_holds M mulf frame scene prims HM Hlen this begin _end m Hb He)
    as (m' & p0 & bb & Hp0 & Hbb & Hfill & Hhdr & Hslots).
  fold N in Hbb, Hfill, Hhdr, Hslots.
  assert (HN : 1 <= N <= M) by (unfold N; lia).
  assert (Hp0g : geomID p0 = g).
  { rewrite Forall_lookup in Hg. apply (Hg (Z.to_nat 0) p0).
    rewrite slice_lookup by lia. rewrite Z.add_0_r. exact Hp0. }
  assert (Hwf0 : wf_PrimRef p0).
  { rewrite Forall_lookup in Hwf. eapply Hwf. exact Hp0. }
  destruct (header_decodes this N _ _ _ m' Hhdr ltac:(lia) (proj1 Hwf0))
    as (Hc & Hgid & _).
  exists m'. split; [exact Hfill |]. split; [exact Hc |].
  split; [rewrite <- Hp0g; exact Hgid |].
  intros i Hi.
  destruct (prims_lookup prims (begin + i)) as [p Hp]; [lia |].
  exists p. split; [exact Hp |].
  destruct (slot_decodes this N i _ _ p m' (Hslots i p Hi Hp)) as (Hpid & _).
  apply Hpid. rewrite Forall_lookup in Hwf. eapply Hwf. exact Hp.
Qed.

Lemma C8_fill_round_trip_witness :
  exists m',
    fill (basis := BezierBasis) 4 Rmult frame_of_axis line_scene line_prims 4096 4 7 ∅
      = Some (m', 7) /\
    decode_count 4096 m' = Some 3 /\
    decode_geomID 4096 3 m' = Some 0 /\
    decode_primID 4096 3 2 m' = Some 6.
Proof.
  destruct (C8_fill_round_trip (basis := BezierBasis) 4 Rmult frame_of_axis line_scene
              line_prims 4096 4 7 0 ∅)
    as (m' & Hf & Hc & Hg & Hp).
  - lia.
  - cbn. lia.
  - unfold line_prims, wf_PrimRef, is_u32. repeat constructor; cbn; lia.
  - lia.
  - cbn. lia.
  - cbn. repeat constructor.
  - exists m'. split; [exact Hf |]. split; [exact Hc |]. split; [exact Hg |].
    destruct (Hp 2 ltac:(lia)) as (p & Hlk & Hd).
    cbn in Hlk. injection Hlk as <-. exact Hd.
Defined.

(** ** Quantized basis components *)

Section BasisQuantization.
Local Open Scope R_scope.

Lemma quantize_space_component mulf a c space2 :
  component c (frame_axis a (quantize_space mulf space2))
  = trunc (mulf 126%R (component c (frame_axis a space2))).
Proof. destruct a, c; reflexivity. Qed.

Lemma Rabs_le_between r b : Rabs r <= b -> - b <= r <= b.
Proof. unfold Rabs. destruct (Rcase_abs r); lra. Qed.

(** A product [r] of magnitude at most 126 is stored as its truncation,
    without wrap-around, and the truncation does not exceed it in
    magnitude. *)
Lemma quantize_char_exact r :
  Rabs r <= 126 ->
  quantize_char (trunc r) = Ztrunc r /\
  (-126 <= Ztrunc r <= 126)%Z /\
  Rabs (IZR (Ztrunc r)) <= Rabs r.
Proof.
  intros Hc. apply Rabs_le_between in Hc.
  pose proof (Ztrunc_toward_zero r) as [Hpos Hneg].
  assert (Hr : (-126 <= Ztrunc r <= 126)%Z).
  { destruct (Rle_dec 0 r) as [H0|H0].
    - destruct (Hpos ltac:(lra)) as [H1 H2].
      split; apply le_IZR; lra.
    - destruct (Hneg ltac:(lra)) as [H1 H2].
      split; apply le_IZR; lra. }
  split; [| split; [exact Hr |]].
  - unfold quantize_char, trunc, to_short, to_char. rewrite Ztrunc_IZR.
    rewrite (wrap_signed_small 16) by lia. apply wrap_signed_small; lia.
  - destruct (Rle_dec 0 r) as [H0|H0].
    + destruct (Hpos ltac:(lra)) as [H1 H2].
      rewrite (Rabs_pos_eq (IZR _)) by exact H1. rewrite (Rabs_pos_eq r) by exact H0.
      exact H2.
    + destruct (Hneg ltac:(lra)) as [H1 H2].
      rewrite (Rabs_left1 (IZR _)) by exact H2. rewrite (Rabs_left r) by lra. lra.
Qed.

(** The exact product of 126 and a component in [[-1, 1]] has magnitude
    at most 126. *)
Lemma Rmult_126_bounded c : Rabs c <= 1 -> Rabs (126 * c) <= 126.
Proof.
  intros H. rewrite Rabs_mult, (Rabs_pos_eq 126) by lra. lra.
Qed.

Lemma normalize_bounded v : unit_bounded (normalize v).
Proof.
  intros c. unfold normalize.
  assert (Hd : 0 <= dot v v).
  { unfold dot. pose proof (Rle_0_sqr (x v)). pose proof (Rle_0_sqr (y v)).
    pose proof (Rle_0_sqr (z v)). unfold Rsqr in *. lra. }
  assert (Hcomp : forall t, t * t <= dot v v -> Rabs (t * / sqrt (dot v v)) <= 1).
  { intros t Ht. destruct (Req_dec (dot v v) 0) as [Hz|Hnz].
    - rewrite Hz, sqrt_0, Rinv_0, Rmult_0_r, Rabs_R0. lra.
    - assert (Hs : 0 < sqrt (dot v v)) by (apply sqrt_lt_R0; lra).
      assert (Ht2 : Rabs t <= sqrt (dot v v)).
      { rewrite <- sqrt_Rsqr_abs. apply sqrt_le_1; [apply Rle_0_sqr | lra |].
        unfold Rsqr. exact Ht. }
      rewrite Rabs_mult, (Rabs_pos_eq (/ _)) by (left; apply Rinv_0_lt_compat; exact Hs).
      apply Rmult_le_reg_r with (sqrt (dot v v)); [exact Hs |].
      rewrite Rmult_assoc, Rinv_l by lra. lra. }
  unfold dot in *.
  pose proof (Rle_0_sqr (x v)). pose proof (Rle_0_sqr (y v)).
  pose proof (Rle_0_sqr (z v)). unfold Rsqr in *.
  destruct c; cbn [component vscale x y z]; apply Hcomp; lra.
Qed.

Lemma unit_bounded_intro a b c :
  Rabs a <= 1 -> Rabs b <= 1 -> Rabs c <= 1 -> unit_bounded (Vec3 a b c).
Proof. intros Ha Hb Hc k. destruct k; assumption. Qed.

Lemma frame_of_axis_bounded N : unit_bounded N -> frame_bounded (frame_of_axis N).
Proof.
  intros HN a. unfold frame_of_axis.
  destruct a; cbn [frame_axis vx vy vz]; [apply normalize_bounded .. | exact HN].
Qed.

Section SolverBounded.

Context {basis : CurveBasis}.
Variable frame : Vec3fa -> LinearSpace3fa.
Variable scene : Scene.

Hypothesis frame_keeps_bounds :
  forall N, unit_bounded N -> frame_bounded (frame N).

Lemma solver_init_bounded : unit_bounded (axisz solver_init).
Proof.
  cbn. apply unit_bounded_intro; rewrite ?Rabs_R0, ?Rabs_R1; lra.
Qed.

Lemma solver_step_bounded offset scale st p :
  unit_bounded (axisz st) -> unit_bounded (axisz (solver_step scene offset scale st p)).
Proof.
  intros H. unfold solver_step.
  destruct (_ <=? _)%Z; [exact H |].
  destruct (Rgt_dec _ _); [apply normalize_bounded | exact H].
Qed.

Lemma solver_finish_bounded st :
  unit_bounded (axisz st) -> frame_bounded (solver_finish frame st).
Proof.
  intros H. unfold solver_finish.
  destruct (Rgt_dec _ _); [| apply frame_keeps_bounds; exact H].
  intros a. destruct a; cbn [frame_axis vx vy vz];
    [apply normalize_bounded .. | exact H].
Qed.

Lemma prim_space2_bounded offset scale p :
  frame_bounded (prim_space2 frame scene offset scale p).
Proof.
  unfold prim_space2. apply solver_finish_bounded, solver_step_bounded,
    solver_init_bounded.
Qed.

End SolverBounded.

End BasisQuantization.

(** ** The quantized slots of a filled block *)

(** After [fill], slot [i] reads back as the quantized frame and the
    quantized bound of the [i]-th primitive of the slice. *)
Lemma fill_decodes {basis : CurveBasis} (M : Z)
    (mulf : R -> R -> R) (frame : Vec3fa -> LinearSpace3fa) (scene : Scene)
    (prims : list PrimRef) (this begin _end : Z) (m : memory) :
  1 <= M <= 255 ->
  Z.of_nat (length prims) + M < 2 ^ 64 ->
  0 <= begin < _end -> _end <= Z.of_nat (length prims) ->
  let N := Z.min M (_end - begin) in
  exists m' bb,
    fill M mulf frame scene prims this begin _end m = Some (m', begin + N) /\
    slice_bounds scene (slice prims begin N) = Some bb /\
    forall i p, 0 <= i < N -> prims !! Z.to_nat (begin + i) = Some p ->
      let space2 := prim_space2 frame scene (lower bb) (block_scale bb) p in
      let box := prim_box mulf frame scene (lower bb) (block_scale bb) p in
      computeAlignedSpace frame scene prims (range1 (begin + i)) (lower bb) (block_scale bb)
        = Some space2 /\
      (forall a c, decode_basis a c this N i m'
         = Some (quantize_char (trunc (mulf 126%R (component c (frame_axis a space2)))))) /\
      (forall a, decode_lower a this N i m'
         = Some (quantize_lower (component a (lower box)))) /\
      (forall a, decode_upper a this N i m'
         = Some (quantize_upper (component a (upper box)))).
Proof.
  intros HM Hlen Hb He N.
  destruct (fill_holds M mulf frame scene prims HM Hlen this begin _end m Hb He)
    as (m' & p0 & bb & Hp0 & Hbb & Hfill & Hhdr & Hslots).
  fold N in Hbb, Hfill, Hhdr, Hslots.
  exists m', bb. split; [exact Hfill |]. split; [exact Hbb |].
  intros i p Hi Hp space2 box.
  destruct (slot_decodes this N i _ _ p m' (Hslots i p Hi Hp)) as (_ & Hbasis & Hlo & Hup).
  split; [| split; [| split]].
  - apply computeAlignedSpace_range1; [lia | unfold N in Hi; lia | exact Hp].
  - intros a c. rewrite Hbasis. unfold prim_space3.
    rewrite quantize_space_component. reflexivity.
  - exact Hlo.
  - exact Hup.
Qed.

(** C7 (amended): every stored basis component is the truncation of
    the single-precision product [126.0f * c], where [c] is the component
    of the frame the solver returns for the primitive; [c] has magnitude
    at most 1 and the product magnitude at most 126, so the stored value
    lies in [[-126, 126]], survives the casts through [short] and [char]
    unchanged, and its magnitude is at most that of the product, hence at
    most [126 |c|] wherever the product is exact. *)
Theorem C7_basis_components {basis : CurveBasis} (M : Z)
    (mulf : R -> R -> R) (frame : Vec3fa -> LinearSpace3fa) (scene : Scene)
    (prims : list PrimRef) (this begin _end : Z) (m : memory) :
  1 <= M <= 255 ->
  Z.of_nat (length prims) + M < 2 ^ 64 ->
  0 <= begin < _end -> _end <= Z.of_nat (length prims) ->
  (forall N, unit_bounded N -> frame_bounded (frame N)) ->
  (forall c, (Rabs c <= 1)%R -> (Rabs (mulf 126%R c) <= 126)%R) ->
  let N := Z.min M (_end - begin) in
  exists m' bb,
    fill M mulf frame scene prims this begin _end m = Some (m', begin + N) /\
    slice_bounds scene (slice prims begin N) = Some bb /\
    forall i p a c, 0 <= i < N -> prims !! Z.to_nat (begin + i) = Some p ->
      exists space2,
        computeAlignedSpace frame scene prims (range1 (begin + i))
          (lower bb) (block_scale bb) = Some space2 /\
        let cv := component c (frame_axis a space2) in
        let stored := Ztrunc (mulf 126%R cv) in
        (Rabs cv <= 1)%R /\
        decode_basis a c this N i m' = Some stored /\
        -126 <= stored <= 126 /\
        to_char (to_short stored) = stored /\
        (Rabs (IZR stored) <= Rabs (mulf 126%R cv))%R /\
        (mulf 126%R cv = (126 * cv)%R -> (Rabs (IZR stored) <= 126 * Rabs cv)%R).
Proof.
  intros HM Hlen Hb He Hframe Hmul N.
  destruct (fill_decodes M mulf frame scene prims this begin _end m HM Hlen Hb He)
    as (m' & bb & Hfill & Hbb & Hslots).
  fold N in Hfill, Hbb, Hslots.
  exists m', bb. split; [exact Hfill |]. split; [exact Hbb |].
  intros i p a c Hi Hp.
  destruct (Hslots i p Hi Hp) as (Hcas & Hbasis & _).
  eexists. split; [exact Hcas |].
  cbv zeta.
  pose proof (prim_space2_bounded frame scene Hframe (lower bb) (block_scale bb) p a c)
    as Hcv.
  destruct (quantize_char_exact _ (Hmul _ Hcv)) as (Hq & Hr & Hmag).
  split; [exact Hcv |]. split; [rewrite Hbasis, Hq; reflexivity |].
  split; [exact Hr |].
  split; [rewrite (wrap_signed_small 16) by lia; apply wrap_signed_small; lia |].
  split; [exact Hmag |].
  intros Hex. rewrite Hex in Hmag |- *.
  rewrite Rabs_mult, (Rabs_pos_eq 126) in Hmag by lra. exact Hmag.
Qed.

Lemma C7_basis_components_witness :
  exists m' bb,
    fill (basis := BezierBasis) 4 Rmult frame_of_axis line_scene line_prims 4096 0 7 ∅
      = Some (m', 4) /\
    slice_bounds line_scene (slice line_prims 0 4) = Some bb /\
    exists space2,
      computeAlignedSpace (basis := BezierBasis) frame_of_axis line_scene line_prims
        (range1 1) (lower bb) (block_scale bb) = Some space2 /\
      -126 <= Ztrunc (126 * x (vz space2)) <= 126.
Proof.
  destruct (C7_basis_components (basis := BezierBasis) 4 Rmult frame_of_axis line_scene
              line_prims 4096 0 7 ∅ ltac:(lia) ltac:(cbn; lia) ltac:(lia)
              ltac:(cbn; lia) frame_of_axis_bounded Rmult_126_bounded)
    as (m' & bb & Hf & Hbb & Hs).
  exists m', bb. split; [exact Hf |]. split; [exact Hbb |].
  destruct (Hs 1 (mkPrimRef 0 1) AxisZ AxisX ltac:(lia) eq_refl)
    as (space2 & Hc & _ & _ & Hr & _).
  exists space2. split; [exact Hc | exact Hr].
Defined.

(** C7, as stated, fails in single precision: for the component
    [c = 16644063 * 2^-24] (about 0.99206) the product [126.0f * c] rounds
    to 125, which is stored, while [126 c] is below 125. *)
Lemma C7_rounded_product_counterexample :
  Binary32.is_finite Binary32.c_near_125 = true /\
  Binary32.mul Binary32.f126 Binary32.c_near_125 = Binary32.of_Z 125 /\
  Binary32.trunc_to_int (Binary32.mul Binary32.f126 Binary32.c_near_125) = Some 125 /\
  to_char (to_short 125) = 125 /\
  (Binary32.to_R Binary32.c_near_125 <= 1)%R /\
  (126 * Binary32.to_R Binary32.c_near_125 < 125)%R /\
  ~ (Rabs (IZR 125) <= 126 * Rabs (Binary32.to_R Binary32.c_near_125))%R.
Proof.
  assert (Hc : Binary32.to_R Binary32.c_near_125 = (16644063 / 16777216)%R).
  { unfold Binary32.to_R, Binary32.c_near_125. cbn [Z.opp Z.leb Z.compare].
    change (2 ^ 24)%Z with 16777216%Z. reflexivity. }
  split; [reflexivity |]. split; [vm_compute; reflexivity |].
  split; [vm_compute; reflexivity |]. split; [reflexivity |].
  rewrite Hc. split; [lra |]. split; [lra |].
  rewrite (Rabs_pos_eq (IZR 125)) by lra.
  rewrite Rabs_pos_eq by lra. lra.
Qed.

(** ** Quantized bounds *)

Lemma clamp_inside v lo hi : (lo <= v <= hi)%R -> clamp v lo hi = v.
Proof.
  intros [H1 H2]. unfold clamp. rewrite Rmin_left by exact H2.
  apply Rmax_left. exact H1.
Qed.

(** *** [fill] with its assertions *)

Section FillChecked.

Context {basis : CurveBasis}.
Variable M : Z.
Variable mulf : R -> R -> R.
Variable frame : Vec3fa -> LinearSpace3fa.
Variable scene : Scene.
Variable prims : list PrimRef.

Hypothesis M_range : 1 <= M <= 255.
Hypothesis prims_addressable : Z.of_nat (length prims) + M < 2 ^ 64.







End FillChecked.



(** ** The search of the aligned-space solver *)

Section SolverSearch.

Context {basis : CurveBasis}.
Variable scene : Scene.
Variable offset : Vec3fa.
Variable scale : R.

Local Abbreviation step := (solver_step scene offset scale).
Local Abbreviation sol := (solver_of scene offset scale).

Lemma solver_init_best : bestGeomPrimID solver_init = max_ID64.
Proof. reflexivity. Qed.

Lemma ID64_range p : 0 <= ID64 p <= max_ID64.
Proof.
  unfold ID64, wrap64, max_ID64.
  pose proof (Z.mod_pos_bound (geomID p + Z.shiftl (primID p) 32) (2 ^ 64) ltac:(lia)).
  lia.
Qed.

Lemma ID64_wf p : wf_PrimRef p -> ID64 p = geomID p + 2 ^ 32 * primID p.
Proof.
  intros [Hg Hp]. unfold ID64, is_u32 in *. rewrite Z.shiftl_mul_pow2 by lia.
  rewrite wrap64_small; lia.
Qed.

Lemma ID64_inj p q : wf_PrimRef p -> wf_PrimRef q -> ID64 p = ID64 q -> p = q.
Proof.
  intros Hp Hq H. rewrite (ID64_wf p Hp), (ID64_wf q Hq) in H.
  destruct Hp as [Hp1 Hp2], Hq as [Hq1 Hq2]. unfold is_u32 in *.
  destruct p as [g1 p1], q as [g2 p2]. cbn [geomID primID] in *.
  assert (p1 = p2) by lia. assert (g1 = g2) by lia. congruence.
Qed.

Lemma step_skip st p : bestGeomPrimID st <= ID64 p -> step st p = st.
Proof.
  intros H. unfold solver_step.
  destruct (Z.leb_spec (bestGeomPrimID st) (ID64 p)); [reflexivity | lia].
Qed.

Lemma step_degenerate st p : ~ valid_direction scene offset scale p -> step st p = st.
Proof.
  intros H. unfold solver_step. destruct (_ <=? _); [reflexivity |].
  destruct (Rgt_dec _ _) as [Hgt|_]; [| reflexivity].
  exfalso. apply H. exact Hgt.
Qed.

Lemma step_take st p :
  ID64 p < bestGeomPrimID st -> valid_direction scene offset scale p ->
  step st p = sol p.
Proof.
  intros Hlt Hv. unfold solver_step.
  destruct (Z.leb_spec (bestGeomPrimID st) (ID64 p)); [lia |].
  destruct (Rgt_dec _ _) as [_|Hn]; [reflexivity |].
  exfalso. apply Hn. exact Hv.
Qed.

Lemma valid_direction_dec p :
  {valid_direction scene offset scale p} + {~ valid_direction scene offset scale p}.
Proof. unfold valid_direction. apply Rgt_dec. Qed.

(** The defining primitive [q] stays when the next primitive [p] is not a
    candidate or does not have a smaller identifier. *)
Lemma tracks_keep q seen p :
  q ∈ seen -> candidate scene offset scale q ->
  (forall p', p' ∈ seen -> candidate scene offset scale p' -> ID64 q <= ID64 p') ->
  (candidate scene offset scale p -> ID64 q <= ID64 p) ->
  tracks scene offset scale (sol q) (seen ++ [p]).
Proof.
  intros Hq Hcq Hmin Hp. right. exists q.
  split; [apply elem_of_app; left; exact Hq |].
  split; [exact Hcq |]. split; [reflexivity |].
  intros p' Hin Hc. apply elem_of_app in Hin as [Hin|Hin]; [apply Hmin; assumption |].
  apply list_elem_of_singleton in Hin. subst p'. apply Hp. exact Hc.
Qed.

(** The next primitive [p] becomes the defining one when it is a
    candidate below every candidate seen. *)
Lemma tracks_take seen p :
  candidate scene offset scale p ->
  (forall p', p' ∈ seen -> candidate scene offset scale p' -> ID64 p <= ID64 p') ->
  tracks scene offset scale (sol p) (seen ++ [p]).
Proof.
  intros Hc Hmin. right. exists p.
  split; [apply elem_of_app; right; apply list_elem_of_singleton; reflexivity |].
  split; [exact Hc |]. split; [reflexivity |].
  intros p' Hin Hc'. apply elem_of_app in Hin as [Hin|Hin]; [apply Hmin; assumption |].
  apply list_elem_of_singleton in Hin. subst p'. lia.
Qed.

Lemma tracks_step st seen p :
  tracks scene offset scale st seen ->
  tracks scene offset scale (step st p) (seen ++ [p]).
Proof.
  pose proof (ID64_range p) as Hr.
  intros [[-> Hnone] | (q & Hq & Hcq & -> & Hmin)].
  - assert (Hstay : ~ candidate scene offset scale p ->
                    tracks scene offset scale solver_init (seen ++ [p])).
    { intros Hnc. left. split; [reflexivity |]. intros p' Hin.
      apply elem_of_app in Hin as [Hin|Hin]; [apply Hnone; exact Hin |].
      apply list_elem_of_singleton in Hin. subst p'. exact Hnc. }
    destruct (valid_direction_dec p) as [Hv|Hv].
    + destruct (Z.eq_dec (ID64 p) max_ID64) as [He|Hne].
      * rewrite step_skip by (rewrite solver_init_best; lia).
        apply Hstay. intros [Hlt _]. lia.
      * rewrite step_take; [| rewrite solver_init_best; lia | exact Hv].
        apply tracks_take; [split; [lia | exact Hv] |].
        intros p' Hin Hc. exfalso. exact (Hnone p' Hin Hc).
    + rewrite step_degenerate by exact Hv.
      apply Hstay. intros [_ Hv']. exact (Hv Hv').
  - destruct (Z.le_gt_cases (ID64 q) (ID64 p)) as [Hle|Hgt].
    + rewrite step_skip by exact Hle. apply tracks_keep; auto.
    + destruct (valid_direction_dec p) as [Hv|Hv].
      * rewrite step_take by (cbn; assumption || lia).
        destruct Hcq as [Hq1 Hq2].
        apply tracks_take; [split; [lia | exact Hv] |].
        intros p' Hin Hc. specialize (Hmin p' Hin Hc). lia.
      * rewrite step_degenerate by exact Hv.
        apply tracks_keep; auto. intros [_ Hv']. contradiction.
Qed.

Lemma tracks_nil : tracks scene offset scale solver_init [].
Proof. left. split; [reflexivity |]. intros p Hp. apply elem_of_nil in Hp. contradiction. Qed.

Lemma fold_tracks ps : forall seen st,
  tracks scene offset scale st seen ->
  tracks scene offset scale (fold_left step ps st) (seen ++ ps).
Proof.
  induction ps as [|p ps IH]; intros seen st H.
  - rewrite app_nil_r. exact H.
  - cbn [fold_left]. replace (seen ++ p :: ps) with ((seen ++ [p]) ++ ps)
      by (rewrite <- app_assoc; reflexivity).
    apply IH. apply tracks_step. exact H.
Qed.

(** The state the search reaches depends on the primitives only as a
    set. *)
Lemma tracks_perm st ps ps' :
  Permutation ps ps' -> tracks scene offset scale st ps -> tracks scene offset scale st ps'.
Proof.
  intros Hperm [[-> Hnone] | (q & Hq & Hcq & -> & Hmin)].
  - left. split; [reflexivity |]. intros p Hp. apply Hnone. rewrite Hperm. exact Hp.
  - right. exists q. split; [rewrite <- Hperm; exact Hq |].
    split; [exact Hcq |]. split; [reflexivity |].
    intros p Hp. apply Hmin. rewrite Hperm. exact Hp.
Qed.

(** Composite identifiers of well-formed references are distinct, so the
    state reached is unique. *)
Lemma tracks_unique st1 st2 ps :
  Forall wf_PrimRef ps ->
  tracks scene offset scale st1 ps -> tracks scene offset scale st2 ps -> st1 = st2.
Proof.
  intros Hwf H1 H2. rewrite Forall_forall in Hwf.
  destruct H1 as [[-> Hn1] | (q1 & Hq1 & Hc1 & -> & Hm1)];
    destruct H2 as [[-> Hn2] | (q2 & Hq2 & Hc2 & -> & Hm2)].
  - reflexivity.
  - exfalso. exact (Hn1 q2 Hq2 Hc2).
  - exfalso. exact (Hn2 q1 Hq1 Hc1).
  - assert (q1 = q2); [| congruence].
    apply ID64_inj; [apply Hwf; exact Hq1 | apply Hwf; exact Hq2 |].
    pose proof (Hm1 q2 Hq2 Hc2). pose proof (Hm2 q1 Hq1 Hc1). lia.
Qed.

Section Loop.

Variable frame : Vec3fa -> LinearSpace3fa.
Variable prims : list PrimRef.

Lemma solver_loop_fold : forall n i st,
  0 <= i -> i + Z.of_nat n <= Z.of_nat (length prims) ->
  solver_loop scene prims offset scale i n st
  = Some (fold_left step (slice prims i (Z.of_nat n)) st).
Proof.
  induction n as [|n IH]; intros i st Hi Hl.
  - reflexivity.
  - cbn [solver_loop].
    destruct (prims_lookup prims i) as [p Hp]; [lia |].
    rewrite Hp, IH by lia.
    rewrite (slice_cons prims i (Z.of_nat (S n)) p) by (auto; lia).
    cbn [fold_left]. replace (Z.of_nat (S n) - 1) with (Z.of_nat n) by lia.
    reflexivity.
Qed.

(** On a range inside the array the solver returns, and the loop ends in
    the state that tracks the primitives of the range. *)
Lemma computeAlignedSpace_tracks (set : range) :
  0 <= r_begin set <= r_end set -> r_end set <= Z.of_nat (length prims) ->
  exists st,
    solver_loop scene prims offset scale (r_begin set)
      (Z.to_nat (r_end set - r_begin set)) solver_init = Some st /\
    tracks scene offset scale st (slice prims (r_begin set) (r_end set - r_begin set)) /\
    computeAlignedSpace frame scene prims set offset scale = Some (solver_finish frame st).
Proof.
  intros Hb He. unfold computeAlignedSpace.
  rewrite solver_loop_fold by lia. rewrite Z2Nat.id by lia.
  eexists. split; [reflexivity |]. split; [| reflexivity].
  apply (fold_tracks _ [] solver_init). apply tracks_nil.
Qed.

End Loop.

End SolverSearch.

(** ** Vector algebra of the frame *)

Section FrameAlgebra.
Local Open Scope R_scope.

(** The two thresholds lie just above [10^-18], the double-precision one
    below the single-precision one, and each is the number of its format
    nearest to [10^-18]: within half a unit of its last place, which is
    [2^-83] for the first and [2^-110] for the second. *)
Lemma eps18_order :
  / 10 ^ 18 < eps18 /\ eps18 < eps18f /\
  eps18f - / 10 ^ 18 < / 2 ^ 84 /\ eps18 - / 10 ^ 18 < / 2 ^ 111.
Proof.
  unfold eps18, eps18f. rewrite !pow_IZR. cbn [Z.of_nat Pos.of_succ_nat Pos.succ].
  repeat match goal with
         | |- context [IZR (?a ^ ?n)%Z] =>
             let v := eval vm_compute in (a ^ n)%Z in
             change (IZR (a ^ n)%Z) with (IZR v)
         end.
  repeat split; lra.
Qed.

Lemma eps18_bounds : 0 < eps18 < 1 /\ 0 < eps18f < 1.
Proof.
  pose proof eps18_order as (H1 & H2 & H3 & _).
  assert (H : 1 < 10 ^ 18) by (apply Rlt_pow_R1; [lra | lia]).
  assert (H0 : 0 < / 10 ^ 18) by (apply Rinv_0_lt_compat; lra).
  assert (H4 : 2 < 2 ^ 84).
  { replace 2 with (2 ^ 1) at 1 by ring. apply Rlt_pow; [lra | lia]. }
  assert (H5 : / 2 ^ 84 < / 2) by (apply Rinv_lt_contravar; lra).
  assert (H6 : / 10 ^ 18 < / 2) by (apply Rinv_lt_contravar; lra).
  lra.
Qed.

(** [sqrt3f] is the binary32 number nearest to the square root of 3 and
    lies below it. *)
Lemma sqrt3f_nearest :
  sqrt3f * sqrt3f < 3 /\
  3 < (sqrt3f + / 2 ^ 24) * (sqrt3f + / 2 ^ 24).
Proof.
  unfold sqrt3f. rewrite !pow_IZR. cbn [Z.of_nat Pos.of_succ_nat Pos.succ].
  repeat match goal with
         | |- context [IZR (?a ^ ?n)%Z] =>
             let v := eval vm_compute in (a ^ n)%Z in
             change (IZR (a ^ n)%Z) with (IZR v)
         end.
  split; lra.
Qed.

Lemma vec3_eq a b : x a = x b -> y a = y b -> z a = z b -> a = b.
Proof. destruct a, b. cbn. intros -> -> ->. reflexivity. Qed.

Lemma dot_nonneg v : 0 <= dot v v.
Proof.
  unfold dot. pose proof (Rle_0_sqr (x v)). pose proof (Rle_0_sqr (y v)).
  pose proof (Rle_0_sqr (z v)). unfold Rsqr in *. lra.
Qed.

Lemma dot_vscale v k : dot (vscale v k) (vscale v k) = k * k * dot v v.
Proof. unfold dot, vscale. cbn. ring. Qed.

Lemma dot_vscale_l a b k : dot (vscale a k) b = k * dot a b.
Proof. unfold dot, vscale. cbn. ring. Qed.

Lemma cross_vscale_l a b k : cross (vscale a k) b = vscale (cross a b) k.
Proof. apply vec3_eq; unfold cross, vscale; cbn; ring. Qed.

Lemma dot_cross_l a b : dot a (cross a b) = 0.
Proof. unfold dot, cross. cbn. ring. Qed.

Lemma dot_cross_r a b : dot b (cross a b) = 0.
Proof. unfold dot, cross. cbn. ring. Qed.

(** Lagrange's identity. *)
Lemma dot_cross_cross a b :
  dot (cross a b) (cross a b) = dot a a * dot b b - dot a b * dot a b.
Proof. unfold dot, cross. cbn. ring. Qed.

Lemma cross_cross_l a b :
  cross (cross a b) a = vsub (vscale b (dot a a)) (vscale a (dot a b)).
Proof. apply vec3_eq; unfold cross, vsub, vscale, dot; cbn; ring. Qed.

Lemma cross_cross_r a b :
  cross b (cross a b) = vsub (vscale a (dot b b)) (vscale b (dot a b)).
Proof. apply vec3_eq; unfold cross, vsub, vscale, dot; cbn; ring. Qed.

Lemma normalize_unit v : 0 < dot v v -> dot (normalize v) (normalize v) = 1.
Proof.
  intros H. unfold normalize. rewrite dot_vscale.
  assert (Hs : 0 < sqrt (dot v v)) by (apply sqrt_lt_R0; exact H).
  rewrite <- (sqrt_sqrt (dot v v)) at 3 by lra. field. lra.
Qed.

Lemma normalize_of_unit v : dot v v = 1 -> normalize v = v.
Proof.
  intros H. unfold normalize. rewrite H, sqrt_1, Rinv_1.
  apply vec3_eq; unfold vscale; cbn; ring.
Qed.

Lemma normalize_vscale v k : 0 < k -> normalize (vscale v k) = normalize v.
Proof.
  intros Hk. unfold normalize. rewrite dot_vscale.
  rewrite sqrt_mult by (try apply dot_nonneg; nra).
  rewrite sqrt_square by lra.
  destruct (Req_dec (dot v v) 0) as [Hz|Hnz].
  - rewrite Hz, sqrt_0, Rmult_0_r, Rinv_0.
    apply vec3_eq; unfold vscale; cbn; ring.
  - assert (Hs : 0 < sqrt (dot v v)).
    { apply sqrt_lt_R0. pose proof (dot_nonneg v). lra. }
    apply vec3_eq; unfold vscale; cbn; field; lra.
Qed.

(** The frame the solver builds from a unit tangent [t] and a secondary
    axis [s] orthogonal to it. *)
Lemma aligned_frame_orthonormal t s :
  dot t t = 1 -> dot t s = 0 -> 0 < dot s s ->
  let y' := normalize s in
  let x' := normalize (cross y' t) in
  x' = normalize (cross s t) /\
  orthonormal (LinearSpace3 x' y' t) /\
  right_handed (LinearSpace3 x' y' t).
Proof.
  intros Ht Hts Hs y' x'.
  assert (Hk : 0 < / sqrt (dot s s)) by (apply Rinv_0_lt_compat, sqrt_lt_R0; exact Hs).
  assert (Hy : dot y' y' = 1) by (apply normalize_unit; exact Hs).
  assert (Hyt : dot y' t = 0).
  { unfold y', normalize. rewrite dot_vscale_l.
    replace (dot s t) with (dot t s) by (unfold dot; ring). rewrite Hts. ring. }
  assert (Hc : dot (cross y' t) (cross y' t) = 1).
  { rewrite dot_cross_cross, Hy, Ht, Hyt. ring. }
  assert (Hx : x' = cross y' t) by (apply normalize_of_unit; exact Hc).
  split; [| split].
  - unfold x', y', normalize at 2. rewrite cross_vscale_l.
    apply normalize_vscale. exact Hk.
  - unfold orthonormal. cbn [vx vy vz]. rewrite Hx.
    repeat split; try assumption.
    + rewrite <- (dot_cross_l y' t). unfold dot. ring.
    + rewrite <- (dot_cross_r y' t). unfold dot. ring.
  - unfold right_handed. cbn [vx vy vz]. rewrite Hx.
    split; [| split].
    + rewrite cross_cross_l, Hy, Hyt.
      apply vec3_eq; unfold vsub, vscale; cbn; ring.
    + reflexivity.
    + rewrite cross_cross_r, Ht, Hyt.
      apply vec3_eq; unfold vsub, vscale; cbn; ring.
Qed.

(** The frame built from the initial values of the loop variables is the
    identity, whatever [frame] is. *)
Lemma solver_finish_init frame : solver_finish frame solver_init = identity_frame.
Proof.
  unfold solver_finish, solver_init. cbn [axisy axisz].
  pose proof eps18_bounds as [[_ He] _].
  assert (Hy : dot (Vec3 0 1 0) (Vec3 0 1 0) = 1) by (unfold dot; cbn; ring).
  destruct (Rgt_dec _ _) as [_|Hn].
  - rewrite (normalize_of_unit _ Hy).
    assert (Hcr : cross (Vec3 0 1 0) (Vec3 0 0 1) = Vec3 1 0 0)
      by (apply vec3_eq; unfold cross; cbn; ring).
    rewrite Hcr. rewrite normalize_of_unit by (unfold dot; cbn; ring).
    reflexivity.
  - exfalso. apply Hn. unfold sqr_length. rewrite Hy. lra.
Qed.

End FrameAlgebra.

(** ** What the solver returns *)

Section SolverResults.

Context {basis : CurveBasis}.
Variable frame : Vec3fa -> LinearSpace3fa.
Variable scene : Scene.
Variable prims : list PrimRef.
Variable offset : Vec3fa.
Variable scale : R.

(** With no candidate in the range the loop variables keep their initial
    values and the identity frame is returned. *)
Lemma no_candidate_result (set : range) :
  0 <= r_begin set <= r_end set -> r_end set <= Z.of_nat (length prims) ->
  (forall p, p ∈ slice prims (r_begin set) (r_end set - r_begin set) ->
             ~ candidate scene offset scale p) ->
  solver_loop scene prims offset scale (r_begin set)
    (Z.to_nat (r_end set - r_begin set)) solver_init = Some solver_init /\
  computeAlignedSpace frame scene prims set offset scale = Some identity_frame.
Proof.
  intros Hb He Hnone.
  destruct (computeAlignedSpace_tracks scene offset scale frame prims set Hb He)
    as (st & Hloop & Htr & Hres).
  destruct Htr as [[-> _] | (q & Hq & Hcq & _)].
  - split; [exact Hloop |]. rewrite Hres, solver_finish_init. reflexivity.
  - exfalso. exact (Hnone q Hq Hcq).
Qed.


End SolverResults.


(** ** The solver on the small scenes *)

Section SmallScenes.
Local Open Scope R_scope.

Lemma bent_chord p : chord (basis := BezierBasis) bent_scene zero3 1 p = Vec3 1 0 0.
Proof.
  apply vec3_eq; unfold chord, prim_curve, bent_scene, bent_mesh, zero3, vsub, vscale;
    cbn [curve vertex curve_begin curve_end BezierBasis v0 v3 x y z];
    change (wrap32 (0 + 0)) with 0%Z; change (wrap32 (0 + 3)) with 3%Z;
    cbn; ring.
Qed.


Lemma bent_tangent p :
  normalize (chord (basis := BezierBasis) bent_scene zero3 1 p) = Vec3 1 0 0.
Proof. rewrite bent_chord. apply normalize_of_unit. unfold dot. cbn. ring. Qed.

Lemma bent_valid p : valid_direction (basis := BezierBasis) bent_scene zero3 1 p.
Proof.
  unfold valid_direction. rewrite bent_chord. unfold sqr_length, dot. cbn.
  pose proof eps18_bounds. lra.
Qed.


Lemma point_chord o s p : chord (basis := BezierBasis) point_scene o s p = Vec3 0 0 0.
Proof.
  apply vec3_eq; unfold chord, prim_curve, point_scene, point_mesh, vsub, vscale;
    cbn; ring.
Qed.

Lemma point_not_valid o s p : ~ valid_direction (basis := BezierBasis) point_scene o s p.
Proof.
  unfold valid_direction. rewrite point_chord. unfold sqr_length, dot. cbn.
  pose proof eps18_bounds. lra.
Qed.

Lemma last_prim_ID64 : ID64 last_prim = max_ID64.
Proof. reflexivity. Qed.

Lemma last_prim_wf : wf_PrimRef last_prim.
Proof. unfold wf_PrimRef, is_u32, last_prim. cbn. lia. Qed.

End SmallScenes.






(** C6 (amended): two ranges that present the same primitives in
    different orders end the search in the same state, hence with the
    same defining primitive, and the solver returns the same frame for
    both.  The defining primitive is the one the state tracks: the
    candidate of least identifier, a candidate having an identifier below
    [2^64 - 1] and an adjusted chord of squared length above the
    threshold, or none when the range has no candidate. *)
Theorem C6_order_independence {basis : CurveBasis}
    (frame : Vec3fa -> LinearSpace3fa) (scene : Scene)
    (prims1 prims2 : list PrimRef) (set1 set2 : range)
    (offset : Vec3fa) (scale : R) :
  0 <= r_begin set1 <= r_end set1 -> r_end set1 <= Z.of_nat (length prims1) ->
  0 <= r_begin set2 <= r_end set2 -> r_end set2 <= Z.of_nat (length prims2) ->
  let ps1 := slice prims1 (r_begin set1) (r_end set1 - r_begin set1) in
  let ps2 := slice prims2 (r_begin set2) (r_end set2 - r_begin set2) in
  Forall wf_PrimRef ps1 ->
  Permutation ps1 ps2 ->
  exists st space,
    solver_loop scene prims1 offset scale (r_begin set1)
      (Z.to_nat (r_end set1 - r_begin set1)) solver_init = Some st /\
    solver_loop scene prims2 offset scale (r_begin set2)
      (Z.to_nat (r_end set2 - r_begin set2)) solver_init = Some st /\
    tracks scene offset scale st ps1 /\
    computeAlignedSpace frame scene prims1 set1 offset scale = Some space /\
    computeAlignedSpace frame scene prims2 set2 offset scale = Some space.
Proof.
  intros Hb1 He1 Hb2 He2 ps1 ps2 Hwf Hperm.
  destruct (computeAlignedSpace_tracks scene offset scale frame prims1 set1 Hb1 He1)
    as (st1 & Hloop1 & Htr1 & Hres1).
  destruct (computeAlignedSpace_tracks scene offset scale frame prims2 set2 Hb2 He2)
    as (st2 & Hloop2 & Htr2 & Hres2).
  fold ps1 in Htr1. fold ps2 in Htr2.
  assert (Heq : st2 = st1).
  { apply (tracks_unique scene offset scale st2 st1 ps1 Hwf); [| exact Htr1].
    apply (tracks_perm scene offset scale st2 ps2 ps1); [symmetry; exact Hperm | exact Htr2]. }
  subst st2. exists st1, (solver_finish frame st1).
  repeat split; assumption.
Qed.

Lemma C6_order_independence_witness :
  computeAlignedSpace (basis := BezierBasis) frame_of_axis line_scene line_prims
    (mkRange 0 7) zero3 1
  = computeAlignedSpace (basis := BezierBasis) frame_of_axis line_scene
      (rev line_prims) (mkRange 0 7) zero3 1.
Proof.
  destruct (C6_order_independence (basis := BezierBasis) frame_of_axis line_scene
              line_prims (rev line_prims) (mkRange 0 7) (mkRange 0 7) zero3 1)
    as (st & space & _ & _ & _ & H1 & H2).
  - cbn. lia.
  - cbn. lia.
  - cbn. lia.
  - cbn. lia.
  - cbn. unfold wf_PrimRef, is_u32. repeat constructor; cbn; lia.
  - apply (Permutation_rev line_prims).
  - rewrite H1, H2. reflexivity.
Defined.

(** C6, as stated, names the defining primitive as the one of least
    identifier with a non-degenerate chord.  In both orders of a degenerate
    curve and a bent curve whose identifier is [2^64 - 1], the bent curve
    is that primitive, yet the search ends in its initial state, with the
    default axis (0,0,1) and not the tangent of the bent curve. *)
Lemma C6_least_id_counterexample :
  let ps1 := [mkPrimRef 0 0; last_prim] in
  let ps2 := [last_prim; mkPrimRef 0 0] in
  Permutation ps1 ps2 /\
  valid_direction (basis := BezierBasis) mixed_scene zero3 1 last_prim /\
  (forall p, p ∈ ps1 -> valid_direction (basis := BezierBasis) mixed_scene zero3 1 p ->
             ID64 last_prim <= ID64 p) /\
  solver_loop (basis := BezierBasis) mixed_scene ps1 zero3 1 0 2 solver_init
  = Some solver_init /\
  solver_loop (basis := BezierBasis) mixed_scene ps2 zero3 1 0 2 solver_init
  = Some solver_init /\
  axisz solver_init
  <> axisz (solver_of (basis := BezierBasis) mixed_scene zero3 1 last_prim).
Proof.
  assert (Hv : valid_direction (basis := BezierBasis) mixed_scene zero3 1 last_prim).
  { exact (bent_valid last_prim). }
  assert (Hn : ~ valid_direction (basis := BezierBasis) mixed_scene zero3 1 (mkPrimRef 0 0)).
  { exact (point_not_valid zero3 1 (mkPrimRef 0 0)). }
  assert (H0 : solver_step (basis := BezierBasis) mixed_scene zero3 1 solver_init
                 (mkPrimRef 0 0) = solver_init).
  { apply step_degenerate. exact Hn. }
  assert (H1 : solver_step (basis := BezierBasis) mixed_scene zero3 1 solver_init
                 last_prim = solver_init).
  { apply step_skip. rewrite solver_init_best, last_prim_ID64. lia. }
  cbv zeta. split; [apply perm_swap |]. split; [exact Hv |]. split; [| split; [| split]].
  - intros p Hp Hvp. apply elem_of_cons in Hp. destruct Hp as [->|Hp].
    + contradiction.
    + apply list_elem_of_singleton in Hp. subst p. lia.
  - cbn [solver_loop lookup]. change (Z.to_nat 0) with 0%nat.
    change (Z.to_nat (0 + 1)) with 1%nat. cbn. rewrite H0, H1. reflexivity.
  - cbn [solver_loop lookup]. change (Z.to_nat 0) with 0%nat.
    change (Z.to_nat (0 + 1)) with 1%nat. cbn. rewrite H1, H0. reflexivity.
  - unfold solver_of. cbn [axisz solver_init].
    change (chord (basis := BezierBasis) mixed_scene zero3 1 last_prim)
      with (chord (basis := BezierBasis) bent_scene zero3 1 last_prim).
    rewrite bent_tangent. intros H. injection H as H2 H3. lra.
Qed.

(** ** The largest identifier *)

Section LargestID.

Context {basis : CurveBasis}.
Variable scene : Scene.
Variable offset : Vec3fa.
Variable scale : R.

Lemma step_best_range st p :
  bestGeomPrimID st <= max_ID64 ->
  bestGeomPrimID (solver_step scene offset scale st p) <= max_ID64.
Proof.
  intros H. unfold solver_step. destruct (_ <=? _); [exact H |].
  destruct (Rgt_dec _ _); [| exact H]. cbn. apply ID64_range.
Qed.

(** Dropping the primitives whose identifier is [2^64 - 1] from the
    range does not change where the search ends. *)
Lemma fold_without_max ps : forall st,
  bestGeomPrimID st <= max_ID64 ->
  fold_left (solver_step scene offset scale) ps st
  = fold_left (solver_step scene offset scale)
      (filter (fun p => ID64 p <> max_ID64) ps) st.
Proof.
  induction ps as [|p ps IH]; intros st H; [reflexivity |].
  cbn [fold_left]. rewrite filter_cons.
  destruct (decide (ID64 p <> max_ID64)) as [Hne|Heq].
  - cbn [fold_left]. apply IH. apply step_best_range. exact H.
  - assert (He : ID64 p = max_ID64) by lia.
    rewrite step_skip by lia. apply IH. exact H.
Qed.

End LargestID.

(** C10: a primitive whose composite identifier is [2^64 - 1] never
    replaces the loop variables, whatever its chord; the search ends as
    if such primitives were not in the range; and on a range of such
    primitives only, the solver returns the frame it returns when no
    primitive qualifies, built from the initial loop variables. *)
Theorem C10_largest_id_skipped {basis : CurveBasis}
    (frame : Vec3fa -> LinearSpace3fa) (scene : Scene) (prims : list PrimRef)
    (set : range) (offset : Vec3fa) (scale : R) :
  0 <= r_begin set <= r_end set -> r_end set <= Z.of_nat (length prims) ->
  let ps := slice prims (r_begin set) (r_end set - r_begin set) in
  (forall st p, bestGeomPrimID st <= max_ID64 -> ID64 p = max_ID64 ->
                solver_step scene offset scale st p = st) /\
  solver_loop scene prims offset scale (r_begin set)
    (Z.to_nat (r_end set - r_begin set)) solver_init
  = Some (fold_left (solver_step scene offset scale)
            (filter (fun p => ID64 p <> max_ID64) ps) solver_init) /\
  ((forall p, p ∈ ps -> ID64 p = max_ID64) ->
   solver_loop scene prims offset scale (r_begin set)
     (Z.to_nat (r_end set - r_begin set)) solver_init = Some solver_init /\
   computeAlignedSpace frame scene prims set offset scale
   = Some (solver_finish frame solver_init) /\
   solver_finish frame solver_init = identity_frame).
Proof.
  intros Hb He ps. split; [| split].
  - intros st p Hst Hp. apply step_skip. lia.
  - rewrite solver_loop_fold by lia. rewrite Z2Nat.id by lia. f_equal.
    apply fold_without_max. rewrite solver_init_best. lia.
  - intros Hall.
    destruct (no_candidate_result frame scene prims offset scale set Hb He) as [Hloop Hres].
    { intros p Hp [Hlt _]. rewrite (Hall p Hp) in Hlt. lia. }
    split; [exact Hloop |]. split; [| apply solver_finish_init].
    rewrite Hres, solver_finish_init. reflexivity.
Qed.

Lemma C10_largest_id_skipped_witness :
  valid_direction (basis := BezierBasis) bent_scene zero3 1 last_prim /\
  computeAlignedSpace (basis := BezierBasis) frame_of_axis bent_scene [last_prim]
    (mkRange 0 1) zero3 1 = Some (solver_finish frame_of_axis solver_init).
Proof.
  split; [apply bent_valid |].
  destruct (C10_largest_id_skipped (basis := BezierBasis) frame_of_axis bent_scene
              [last_prim] (mkRange 0 1) zero3 1 ltac:(cbn; lia) ltac:(cbn; lia))
    as (_ & _ & H).
  apply H. cbn. intros p Hp. apply list_elem_of_singleton in Hp. subst p. reflexivity.
Defined.

(** * Further properties of the code *)

(** ** The size of one block and the cost of a primitive *)

(** X1: a block of [N] primitives, [1 <= N <= M], is requested with
    exactly the bytes its fields span, [end(N) - this]; that never exceeds
    the storage of the structure, and reaches it only for a full block. *)
Theorem block_length_law (M this N : Z) :
  1 <= N <= M -> 21 + 25 * M < 2 ^ 64 ->
  bytes M N = Layout.end_ this N - this /\
  bytes M N <= sizeof_BezierNi M /\
  (bytes M N = sizeof_BezierNi M <-> N = M).
Proof.
  intros HN HM.
  assert (Hb : bytes M N = 21 + 25 * N).
  { rewrite bytes_exact; unfold leaf_bytes.
    - destruct (Z.eq_dec N M) as [->|Hne].
      + rewrite Z.div_same, Z.mod_same by lia. cbn [Z.ltb Z.compare]. lia.
      + rewrite Z.div_small, Z.mod_small by lia.
        destruct (Z.ltb_spec 0 N); lia.
    - lia.
    - lia.
    - destruct (Z.eq_dec N M) as [->|Hne].
      + rewrite Z.div_same, Z.mod_same by lia. cbn [Z.ltb Z.compare]. lia.
      + rewrite Z.div_small, Z.mod_small by lia.
        destruct (Z.ltb_spec 0 N); lia. }
  rewrite Hb, sizeof_BezierNi_eq. unfold Layout.end_. lia.
Qed.

Lemma block_length_law_witness :
  bytes 8 5 = Layout.end_ 4096 5 - 4096 /\ bytes 8 5 <= sizeof_BezierNi 8.
Proof.
  destruct (block_length_law 8 4096 5 ltac:(lia) ltac:(lia)) as (H1 & H2 & _).
  split; assumption.
Defined.

(** The size law in two cases, for arithmetic. *)
Lemma leaf_bytes_cases M N : 0 < M -> 0 <= N ->
  exists f r, N = f * M + r /\ 0 <= f /\ 0 <= r < M /\
    leaf_bytes M N = f * (21 + 25 * M) + (if r =? 0 then 0 else 21 + 25 * r).
Proof.
  intros HM HN. exists (N / M), (N mod M).
  pose proof (Z.div_mod N M ltac:(lia)). pose proof (Z.mod_pos_bound N M HM).
  assert (0 <= N / M) by (apply Z.div_pos; lia).
  split; [lia |]. split; [lia |]. split; [lia |].
  unfold leaf_bytes. destruct (Z.eqb_spec (N mod M) 0) as [E|E].
  - rewrite E. reflexivity.
  - destruct (Z.ltb_spec 0 (N mod M)); [reflexivity | lia].
Qed.

(** X2: a leaf costs between [(21 + 25 M) / M] and 46 bytes per
    primitive, the range the source notes beside the storage of the
    block (27.6 for [M = 8], 46 for a block of one primitive). *)
Theorem bytes_per_primitive (M N : Z) :
  1 <= M -> 1 <= N -> leaf_bytes M N < 2 ^ 64 ->
  N * (21 + 25 * M) <= M * bytes M N /\ bytes M N <= 46 * N.
Proof.
  intros HM HN Hw. rewrite bytes_exact by lia.
  destruct (leaf_bytes_cases M N ltac:(lia) ltac:(lia)) as (f & r & HNe & Hf & Hr & ->).
  destruct (Z.eqb_spec r 0) as [E|E]; subst N; nia.
Qed.

Lemma bytes_per_primitive_witness :
  13 * (21 + 25 * 8) <= 8 * bytes 8 13 /\ bytes 8 13 <= 46 * 13.
Proof.
  apply (bytes_per_primitive 8 13); [lia | lia | vm_compute; reflexivity].
Defined.

(** X3: one more primitive costs 46 bytes when it opens a block and 25
    bytes when it joins one, so the size of a leaf grows strictly with
    the number of primitives. *)
Theorem bytes_increment (M N : Z) :
  1 <= M -> 0 <= N -> leaf_bytes M (N + 1) < 2 ^ 64 ->
  bytes M (N + 1) - bytes M N = (if N mod M =? 0 then 46 else 25).
Proof.
  intros HM HN Hw.
  pose proof (Z.div_mod N M ltac:(lia)) as Hdm.
  pose proof (Z.mod_pos_bound N M ltac:(lia)) as Hmb.
  assert (Hf : 0 <= N / M) by (apply Z.div_pos; lia).
  assert (Hnext : (N + 1) / M = (if N mod M + 1 =? M then N / M + 1 else N / M) /\
                  (N + 1) mod M = (if N mod M + 1 =? M then 0 else N mod M + 1)).
  { destruct (Z.eqb_spec (N mod M + 1) M) as [E|E].
    - assert (H1 : N + 1 = (N / M + 1) * M) by nia.
      rewrite H1. rewrite Z.div_mul, Z.mod_mul by lia. split; reflexivity.
    - split.
      + symmetry. apply (Z.div_unique _ _ _ (N mod M + 1)); lia.
      + symmetry. apply (Z.mod_unique _ _ (N / M)); lia. }
  destruct Hnext as [Hq Hr].
  assert (Hlb : leaf_bytes M (N + 1) - leaf_bytes M N
                = (if N mod M =? 0 then 46 else 25)).
  { unfold leaf_bytes. rewrite Hq, Hr.
    destruct (Z.eqb_spec (N mod M + 1) M) as [E|E];
      destruct (Z.eqb_spec (N mod M) 0) as [E0|E0];
      repeat match goal with
             | |- context [?a <? ?b] => destruct (Z.ltb_spec a b)
             end; nia. }
  assert (Hle : leaf_bytes M N < 2 ^ 64) by (destruct (N mod M =? 0); lia).
  rewrite !bytes_exact by lia. exact Hlb.
Qed.

Lemma bytes_increment_witness : bytes 4 8 - bytes 4 7 = 25 /\ bytes 4 9 - bytes 4 8 = 46.
Proof.
  split.
  - apply (bytes_increment 4 7); [lia | lia | vm_compute; reflexivity].
  - apply (bytes_increment 4 8); [lia | lia | vm_compute; reflexivity].
Defined.

(** ** What [fill] leaves untouched *)

Section Confinement.

Implicit Types (m : memory) (w : write) (ws : list write).

Lemma apply_writes_lookup_out ws : forall m a,
  Forall (fun w => a < fst w \/ w_stop w <= a) ws ->
  apply_writes ws m !! a = m !! a.
Proof.
  induction ws as [|w ws IH]; intros m a H; [reflexivity |].
  inversion H as [|? ? Hw Hws]; subst.
  change (apply_writes (w :: ws) m) with (apply_writes ws (store_vals (fst w) (snd w) m)).
  rewrite IH by exact Hws. apply store_vals_lookup_out. exact Hw.
Qed.

Lemma apply_writes_outside lo hi ws m a :
  Forall (w_inside lo hi) ws -> a < lo \/ hi <= a ->
  apply_writes ws m !! a = m !! a.
Proof.
  intros H Ha. apply apply_writes_lookup_out.
  eapply Forall_impl; [exact H |]. intros w [H1 H2]. cbn beta. lia.
Qed.

(** Cells kept by a change of storage are still held. *)
Lemma holds_preserved lo hi ws m m' :
  Forall (w_inside lo hi) ws ->
  (forall a, lo <= a < hi -> m' !! a = m !! a) ->
  Forall (holds m) ws -> Forall (holds m') ws.
Proof.
  intros Hin Hsame Hh. rewrite Forall_forall in *. intros w Hw.
  specialize (Hin w Hw). specialize (Hh w Hw). destruct Hin as [H1 H2].
  unfold holds in *. rewrite <- Hh. apply load_vals_ext.
  intros k Hk. apply Hsame. unfold w_stop in H2. lia.
Qed.

Lemma header_image_inside this N g o s :
  0 <= N -> Forall (w_inside this (Layout.end_ this N)) (header_image this N g o s).
Proof.
  intros HN. unfold header_image. split_list_goal;
    unfold w_inside, w_stop; cbn [fst snd length le_bytes float_parts];
    unfold_layout; lia.
Qed.

Lemma slot_image_inside this N i s3 b p :
  0 <= i < N -> Forall (w_inside this (Layout.end_ this N)) (slot_image this N i s3 b p).
Proof.
  intros Hi. unfold slot_image. split_list_goal;
    unfold w_inside, w_stop; cbn [fst snd length le_bytes float_parts];
    unfold_layout; lia.
Qed.

End Confinement.

Section FillConfined.

Context {basis : CurveBasis}.
Variable M : Z.
Variable mulf : R -> R -> R.
Variable frame : Vec3fa -> LinearSpace3fa.
Variable scene : Scene.
Variable prims : list PrimRef.

Hypothesis M_range : 1 <= M <= 255.
Hypothesis prims_addressable : Z.of_nat (length prims) + M < 2 ^ 64.

Lemma block_image_inside this N g o s ps :
  0 < N -> Z.of_nat (length ps) <= N ->
  Forall (w_inside this (Layout.end_ this N))
    (header_image this N g o s ++ slots_image mulf frame scene this N o s 0 ps).
Proof.
  intros HN Hl. apply Forall_app. split.
  - apply header_image_inside. lia.
  - apply slots_image_Forall. intros j p Hj. apply slot_image_inside. lia.
Qed.

(** The bytes [fill] leaves as they were. *)
Lemma fill_outside (this begin _end : Z) (m : memory) :
  0 <= begin < _end -> _end <= Z.of_nat (length prims) ->
  let N := Z.min M (_end - begin) in
  exists m',
    fill M mulf frame scene prims this begin _end m = Some (m', begin + N) /\
    forall a, a < this \/ Layout.end_ this N <= a -> m' !! a = m !! a.
Proof.
  intros Hb He N.
  destruct (fill_image M mulf frame scene prims M_range prims_addressable this begin _end m Hb He)
    as (p0 & bb & Hp0 & Hbb & Hfill).
  fold N in Hbb, Hfill.
  eexists. split; [exact Hfill |].
  intros a Ha. apply (apply_writes_outside this (Layout.end_ this N)); [| exact Ha].
  apply block_image_inside; [unfold N; lia |].
  rewrite slice_length; unfold N; lia.
Qed.

(** X5: [fill] writes inside its block only: every byte before the block
    and from the end of its [N] primitives on is as it was. *)
Theorem fill_confined (this begin _end : Z) (m : memory) :
  0 <= begin < _end -> _end <= Z.of_nat (length prims) ->
  let N := Z.min M (_end - begin) in
  exists m',
    fill M mulf frame scene prims this begin _end m = Some (m', begin + N) /\
    forall a, a < this \/ Layout.end_ this N <= a -> m' !! a = m !! a.
Proof. apply fill_outside. Qed.

End FillConfined.

Lemma fill_confined_witness :
  exists m',
    fill (basis := BezierBasis) 4 Rmult frame_of_axis line_scene line_prims 4096 4 7
      (<[4096 + 96 := Byte 7]> ∅) = Some (m', 7) /\
    m' !! (4096 + 96) = Some (Byte 7).
Proof.
  destruct (fill_confined (basis := BezierBasis) 4 Rmult frame_of_axis line_scene
              line_prims ltac:(lia) ltac:(cbn; lia) 4096 4 7
              (<[4096 + 96 := Byte 7]> ∅) ltac:(lia) ltac:(cbn; lia))
    as (m' & Hf & Hout).
  exists m'. split; [exact Hf |].
  rewrite Hout; [apply lookup_insert_eq |]. right. vm_compute. discriminate.
Defined.

(** ** The blocks of a leaf *)

Lemma leaf_bytes_0 M : 0 < M -> leaf_bytes M 0 = 0.
Proof. intros HM. unfold leaf_bytes. rewrite Z.div_0_l, Z.mod_0_l by lia. reflexivity. Qed.

Lemma leaf_bytes_small M n : 1 <= n <= M -> leaf_bytes M n = 21 + 25 * n.
Proof.
  intros Hn. unfold leaf_bytes. destruct (Z.eq_dec n M) as [->|Hne].
  - rewrite Z.div_same, Z.mod_same by lia. cbn [Z.ltb Z.compare]. lia.
  - rewrite Z.div_small, Z.mod_small by lia. destruct (Z.ltb_spec 0 n); lia.
Qed.

Lemma leaf_bytes_step M n : 0 < M -> M < n ->
  leaf_bytes M n = (21 + 25 * M) + leaf_bytes M (n - M).
Proof.
  intros HM Hn. unfold leaf_bytes.
  replace (n - M) with (n + (-1) * M) by lia.
  rewrite Z.div_add, Z.mod_add by lia. lia.
Qed.

Section LeafBlocks.

Context {basis : CurveBasis}.
Variable M : Z.
Variable mulf : R -> R -> R.
Variable frame : Vec3fa -> LinearSpace3fa.
Variable scene : Scene.
Variable prims : list PrimRef.
Variable NodeRef : Type.
Variable encodeLeaf : Z -> Z -> NodeRef.
Variable malloc1 : Z -> Z -> Z.
Variable byteAlignment : Z.

Hypothesis M_range : 1 <= M <= 255.
Hypothesis prims_addressable : Z.of_nat (length prims) + M < 2 ^ 64.

Lemma block_holds_preserved this N start m m' :
  0 < N ->
  (forall a, this <= a < Layout.end_ this N -> m' !! a = m !! a) ->
  block_holds mulf frame scene prims this N start m ->
  block_holds mulf frame scene prims this N start m'.
Proof.
  intros HN Hsame (p0 & bb & Hp0 & Hbb & Hhdr & Hslots).
  exists p0, bb. split; [exact Hp0 |]. split; [exact Hbb |]. split.
  - eapply holds_preserved; [apply header_image_inside; lia | exact Hsame | exact Hhdr].
  - intros j p Hj Hp.
    eapply holds_preserved; [apply slot_image_inside; exact Hj | exact Hsame |].
    apply Hslots; assumption.
Qed.

(** One call of [fill]: the block is held and the rest of the storage is
    kept. *)
Lemma fill_block this begin _end m :
  0 <= begin < _end -> _end <= Z.of_nat (length prims) ->
  let N := Z.min M (_end - begin) in
  exists m',
    fill M mulf frame scene prims this begin _end m = Some (m', begin + N) /\
    (forall a, a < this \/ Layout.end_ this N <= a -> m' !! a = m !! a) /\
    block_holds mulf frame scene prims this N begin m'.
Proof.
  intros Hb He N.
  destruct (fill_outside M mulf frame scene prims M_range prims_addressable
              this begin _end m Hb He) as (m' & Hfill & Hout).
  destruct (fill_holds M mulf frame scene prims M_range prims_addressable
              this begin _end m Hb He) as (m'' & p0 & bb & Hp0 & Hbb & Hfill' & Hhdr & Hslots).
  fold N in Hfill, Hout, Hbb, Hfill', Hhdr, Hslots.
  assert (m'' = m') by congruence. subst m''.
  exists m'. split; [exact Hfill |]. split; [exact Hout |].
  exists p0, bb. repeat split; assumption.
Qed.

(** The loop of [createLeaf]: the blocks are held one after the other
    and nothing is written outside the bytes of the leaf. *)
Lemma fill_blocks_memory accel _end : forall n i start m,
  0 <= start <= _end -> _end <= Z.of_nat (length prims) ->
  (n = O -> start = _end) ->
  (n <> O -> start + (Z.of_nat n - 1) * M < _end <= start + Z.of_nat n * M) ->
  exists m' calls,
    fill_blocks M mulf frame scene prims accel _end n i start m = Some (m', _end, calls) /\
    (forall a, a < leaf_block M accel i \/
               leaf_block M accel i + leaf_bytes M (_end - start) <= a ->
               m' !! a = m !! a) /\
    (forall k, 0 <= k < Z.of_nat n ->
       block_holds mulf frame scene prims (leaf_block M accel (i + k))
         (leaf_block_count M (_end - start) k) (start + k * M) m').
Proof.
  induction n as [|n IH]; intros i start m Hs He H0 Hn.
  - exists m, []. rewrite (H0 eq_refl). cbn [fill_blocks].
    split; [reflexivity |]. split; [reflexivity | intros k Hk; lia].
  - specialize (Hn ltac:(discriminate)). clear H0.
    cbn [fill_blocks]. fold (leaf_block M accel i).
    destruct (fill_block (leaf_block M accel i) start _end m ltac:(nia) He)
      as (m1 & Hfill & Hout1 & Hblk).
    rewrite Hfill.
    set (N0 := Z.min M (_end - start)) in *.
    assert (HN0 : 1 <= N0 <= M) by (unfold N0; nia).
    destruct (IH (i + 1) (start + N0) m1) as (m2 & calls & Hfb & Hout2 & Hblks).
    { unfold N0. lia. }
    { exact He. }
    { intros ->. unfold N0. lia. }
    { intros Hn0. unfold N0. destruct n as [|n']; [congruence |]. nia. }
    rewrite Hfb. eexists m2, _. split; [reflexivity |].
    assert (Hnext : leaf_block M accel (i + 1) = leaf_block M accel i + (21 + 25 * M)).
    { unfold leaf_block. rewrite sizeof_BezierNi_eq. lia. }
    assert (Hend : Layout.end_ (leaf_block M accel i) N0
                   = leaf_block M accel i + (21 + 25 * N0)).
    { unfold Layout.end_. lia. }
    assert (Hrest : _end - start <= M /\ N0 = _end - start /\ n = O /\
                    leaf_bytes M (_end - start) = 21 + 25 * N0 \/
                    M < _end - start /\ N0 = M /\ n <> O /\
                    leaf_bytes M (_end - start)
                    = (21 + 25 * M) + leaf_bytes M (_end - (start + N0))).
    { destruct (Z.le_gt_cases (_end - start) M) as [Hle|Hgt].
      - left. assert (HN : N0 = _end - start) by (unfold N0; lia).
        split; [exact Hle |]. split; [exact HN |]. split; [destruct n; [reflexivity | nia] |].
        rewrite HN. apply leaf_bytes_small. lia.
      - right. assert (HN : N0 = M) by (unfold N0; lia).
        split; [lia |]. split; [exact HN |]. split; [destruct n; [nia | discriminate] |].
        rewrite HN. replace (_end - (start + M)) with (_end - start - M) by lia.
        apply leaf_bytes_step; lia. }
    assert (Hsame : forall a, a < leaf_block M accel (i + 1) -> m2 !! a = m1 !! a).
    { intros a Ha. apply Hout2. left. exact Ha. }
    assert (Hall : n = O -> forall a, m2 !! a = m1 !! a).
    { intros ->. cbn [fill_blocks] in Hfb. injection Hfb as <- _ _. reflexivity. }
    split.
    + intros a Ha. destruct Hrest as [(Hle & HN & Hn0 & Hlb) | (Hgt & HN & Hn0 & Hlb)].
      * rewrite (Hall Hn0). apply Hout1. rewrite Hend. lia.
      * rewrite Hout2.
        -- apply Hout1. rewrite Hend.
           pose proof (leaf_bytes_step M (_end - start) ltac:(lia) Hgt) as Hst.
           assert (0 <= leaf_bytes M (_end - start - M)).
           { unfold leaf_bytes.
             assert (0 <= (_end - start - M) / M) by (apply Z.div_pos; lia).
             pose proof (Z.mod_pos_bound (_end - start - M) M ltac:(lia)).
             destruct (0 <? _); nia. }
           lia.
        -- rewrite Hnext. lia.
    + intros k Hk. destruct (Z.eq_dec k 0) as [->|Hk0].
      * replace (i + 0) with i by lia. replace (start + 0 * M) with start by lia.
        assert (Hc : leaf_block_count M (_end - start) 0 = N0)
          by (unfold leaf_block_count, N0; f_equal; lia).
        rewrite Hc. apply (block_holds_preserved _ _ _ m1); [lia | | exact Hblk].
        intros a Ha. destruct Hrest as [(Hle & HN & Hn0 & Hlb) | (Hgt & HN & Hn0 & Hlb)].
        -- apply (Hall Hn0).
        -- apply Hsame. rewrite Hnext, Hend in *. lia.
      * destruct Hrest as [(Hle & HN & Hn0 & Hlb) | (Hgt & HN & Hn0 & Hlb)]; [lia |].
        specialize (Hblks (k - 1) ltac:(lia)).
        replace (i + 1 + (k - 1)) with (i + k) in Hblks by lia.
        replace (start + N0 + (k - 1) * M) with (start + k * M) in Hblks by lia.
        assert (Hc : leaf_block_count M (_end - (start + N0)) (k - 1)
                     = leaf_block_count M (_end - start) k)
          by (unfold leaf_block_count; f_equal; lia).
        rewrite Hc in Hblks. exact Hblks.
Qed.

(** [createLeaf] on a range inside the array: the leaf it returns, the
    bytes it leaves alone and the blocks it holds. *)
Lemma createLeaf_memory (set : range) (m : memory) :
  0 <= r_begin set <= r_end set -> r_end set <= Z.of_nat (length prims) ->
  leaf_bytes M (r_end set - r_begin set) < 2 ^ 64 ->
  let Ntotal := r_end set - r_begin set in
  let accel := malloc1 (leaf_bytes M Ntotal) byteAlignment in
  exists m' calls,
    createLeaf M mulf frame scene prims NodeRef encodeLeaf malloc1 byteAlignment set m
    = Some (mkLeaf NodeRef (leaf_bytes M Ntotal) byteAlignment accel calls m'
              (encodeLeaf accel (ceil_div Ntotal M))) /\
    (forall a, a < accel \/ accel + leaf_bytes M Ntotal <= a -> m' !! a = m !! a) /\
    (forall k, 0 <= k < ceil_div Ntotal M ->
       block_holds mulf frame scene prims (leaf_block M accel k)
         (leaf_block_count M Ntotal k) (r_begin set + k * M) m').
Proof.
  intros Hb He Hbytes Ntotal accel.
  assert (HNt : Ntotal = r_end set - r_begin set) by reflexivity.
  assert (Hacc : accel = malloc1 (leaf_bytes M Ntotal) byteAlignment) by reflexivity.
  clearbody accel. clearbody Ntotal. rewrite <- HNt in Hbytes.
  assert (HM : 0 < M) by lia.
  assert (Hsize : range_size set = Ntotal).
  { rewrite HNt. unfold range_size. apply wrap64_small. lia. }
  assert (Hblocks : blocks M Ntotal = ceil_div Ntotal M) by (apply blocks_exact; lia).
  assert (Hbyt : bytes M Ntotal = leaf_bytes M Ntotal) by (apply bytes_exact; lia).
  destruct (ceil_div_least Ntotal M HM ltac:(lia)) as [Hup Hlow].
  assert (Hnb : 0 <= ceil_div Ntotal M).
  { unfold ceil_div. assert (0 <= Ntotal / M) by (apply Z.div_pos; lia).
    destruct (_ =? _); lia. }
  unfold createLeaf. rewrite Hsize, Hblocks, Hbyt, <- Hacc.
  destruct (fill_blocks_memory accel (r_end set) (Z.to_nat (ceil_div Ntotal M)) 0
              (r_begin set) m) as (m' & calls & Hfb & Hout & Hblks);
    [lia | lia | intros H0; nia | intros Hn; nia |].
  rewrite Hfb. exists m', calls. split; [reflexivity |].
  rewrite <- HNt in Hout, Hblks. split.
  - intros a Ha. apply Hout. unfold leaf_block. lia.
  - intros k Hk. specialize (Hblks k ltac:(lia)).
    replace (0 + k) with k in Hblks by lia. exact Hblks.
Qed.

(** X4: on an empty range [createLeaf] requests no byte, calls [fill] for
    no block, leaves the storage as it is and returns the leaf of zero
    blocks at the address the allocator answered. *)
Theorem createLeaf_empty (set : range) (m : memory) :
  r_begin set = r_end set ->
  createLeaf M mulf frame scene prims NodeRef encodeLeaf malloc1 byteAlignment set m
  = Some (mkLeaf NodeRef 0 byteAlignment (malloc1 0 byteAlignment) [] m
            (encodeLeaf (malloc1 0 byteAlignment) 0)).
Proof.
  intros He. unfold createLeaf, range_size. rewrite He, Z.sub_diag.
  change (wrap64 0) with 0.
  assert (Hb : blocks M 0 = 0).
  { unfold blocks. rewrite Z.add_0_l. rewrite (wrap64_small M) by lia.
    rewrite (wrap64_small (M - 1)) by lia.
    rewrite Z.div_small by lia. reflexivity. }
  assert (Hy : bytes M 0 = 0).
  { unfold bytes. rewrite Z.div_0_l, Z.mod_0_l by lia. reflexivity. }
  rewrite Hb, Hy. reflexivity.
Qed.

(** X6: [createLeaf] writes inside the bytes it requested only: every
    byte before the address the allocator answered and from the end of
    the request on is as it was. *)
Theorem createLeaf_confined (set : range) (m : memory) :
  0 <= r_begin set <= r_end set -> r_end set <= Z.of_nat (length prims) ->
  leaf_bytes M (r_end set - r_begin set) < 2 ^ 64 ->
  exists lf,
    createLeaf M mulf frame scene prims NodeRef encodeLeaf malloc1 byteAlignment set m
    = Some lf /\
    leaf_accel NodeRef lf = malloc1 (leaf_numbytes NodeRef lf) byteAlignment /\
    leaf_numbytes NodeRef lf = bytes M (range_size set) /\
    forall a, a < leaf_accel NodeRef lf \/
              leaf_accel NodeRef lf + leaf_numbytes NodeRef lf <= a ->
              leaf_memory NodeRef lf !! a = m !! a.
Proof.
  intros Hb He Hbytes.
  destruct (createLeaf_memory set m Hb He Hbytes) as (m' & calls & Hc & Hout & _).
  eexists. split; [exact Hc |]. cbn [leaf_accel leaf_numbytes leaf_memory].
  split; [reflexivity |]. split; [| exact Hout].
  unfold range_size. rewrite wrap64_small by lia. symmetry. apply bytes_exact; lia.
Qed.

(** X7: a leaf reads back whole: primitive [j] of the range is found in
    block [j / M] at slot [j mod M]; that block reads back its count,
    the geometry id of its first primitive and the primitive id of
    [prims[begin + j]], with the count of the block given to the
    accessors. *)
Theorem createLeaf_round_trip (set : range) (m : memory) :
  0 <= r_begin set <= r_end set -> r_end set <= Z.of_nat (length prims) ->
  leaf_bytes M (r_end set - r_begin set) < 2 ^ 64 ->
  Forall wf_PrimRef prims ->
  exists lf,
    createLeaf M mulf frame scene prims NodeRef encodeLeaf malloc1 byteAlignment set m
    = Some lf /\
    forall j, 0 <= j < r_end set - r_begin set ->
      let k := j / M in
      let this := leaf_block M (leaf_accel NodeRef lf) k in
      let N := leaf_block_count M (r_end set - r_begin set) k in
      exists p p0,
        prims !! Z.to_nat (r_begin set + j) = Some p /\
        prims !! Z.to_nat (r_begin set + k * M) = Some p0 /\
        1 <= N <= M /\
        decode_count this (leaf_memory NodeRef lf) = Some N /\
        decode_geomID this N (leaf_memory NodeRef lf) = Some (geomID p0) /\
        decode_primID this N (j mod M) (leaf_memory NodeRef lf) = Some (primID p).
Proof.
  intros Hb He Hbytes Hwf.
  destruct (createLeaf_memory set m Hb He Hbytes) as (m' & calls & Hc & _ & Hblks).
  eexists. split; [exact Hc |]. cbn [leaf_accel leaf_memory].
  intros j Hj. cbv zeta.
  set (k := j / M).
  set (this := leaf_block M (malloc1 (leaf_bytes M (r_end set - r_begin set)) byteAlignment) k).
  set (N := leaf_block_count M (r_end set - r_begin set) k).
  assert (HM : 0 < M) by lia.
  pose proof (Z.div_mod j M ltac:(lia)) as Hdm.
  pose proof (Z.mod_pos_bound j M HM) as Hmb.
  assert (Hk0 : 0 <= k) by (apply Z.div_pos; lia).
  destruct (ceil_div_least (r_end set - r_begin set) M HM ltac:(lia)) as [Hup Hlow].
  assert (Hk : 0 <= k < ceil_div (r_end set - r_begin set) M) by (unfold k; nia).
  assert (HN : 1 <= N <= M /\ j mod M < N).
  { unfold N, leaf_block_count, k. split; nia. }
  destruct (Hblks k Hk) as (p0 & bb & Hp0 & Hbb & Hhdr & Hslots).
  fold this in Hhdr, Hslots. fold N in Hbb, Hhdr, Hslots.
  destruct (prims_lookup prims (r_begin set + j)) as [p Hp]; [lia |].
  exists p, p0. split; [exact Hp |]. split; [exact Hp0 |]. split; [apply HN |].
  rewrite Forall_lookup in Hwf.
  destruct (header_decodes this N _ _ _ m' Hhdr ltac:(lia) (proj1 (Hwf _ _ Hp0)))
    as (Hcnt & Hgid & _).
  split; [exact Hcnt |]. split; [exact Hgid |].
  assert (Hpj : prims !! Z.to_nat (r_begin set + k * M + j mod M) = Some p).
  { rewrite <- Hp. do 2 f_equal. unfold k. lia. }
  destruct (slot_decodes this N (j mod M) _ _ p m' (Hslots (j mod M) p ltac:(lia) Hpj))
    as (Hpid & _).
  apply Hpid. apply (Hwf _ _ Hp).
Qed.

End LeafBlocks.

Lemma createLeaf_confined_witness :
  exists lf,
    createLeaf (basis := BezierBasis) 4 Rmult frame_of_axis line_scene line_prims
      (Z * Z)%type pair (fun _ _ => 4096) 16 (mkRange 0 7)
      (<[4096 + 217 := Byte 1]> ∅) = Some lf /\
    leaf_memory _ lf !! (4096 + 217) = Some (Byte 1).
Proof.
  destruct (createLeaf_confined (basis := BezierBasis) 4 Rmult frame_of_axis line_scene
              line_prims (Z * Z)%type pair (fun _ _ => 4096) 16
              ltac:(lia) ltac:(cbn; lia) (mkRange 0 7) (<[4096 + 217 := Byte 1]> ∅)
              ltac:(cbn; lia) ltac:(cbn; lia) ltac:(vm_compute; reflexivity))
    as (lf & Hc & Ha & Hn & Hout).
  exists lf. split; [exact Hc |].
  rewrite Hout; [apply lookup_insert_eq |].
  right. rewrite Ha, Hn. vm_compute. discriminate.
Defined.

Lemma createLeaf_empty_witness :
  createLeaf (basis := BezierBasis) 4 Rmult frame_of_axis line_scene line_prims
    (Z * Z)%type pair (fun _ _ => 4096) 16 (mkRange 3 3) ∅
  = Some (mkLeaf _ 0 16 4096 [] ∅ (4096, 0)).
Proof.
  apply (createLeaf_empty (basis := BezierBasis) 4 Rmult frame_of_axis line_scene
           line_prims (Z * Z)%type pair (fun _ _ => 4096) 16 ltac:(lia)
           (mkRange 3 3) ∅ eq_refl).
Defined.

Lemma createLeaf_round_trip_witness :
  exists lf,
    createLeaf (basis := BezierBasis) 4 Rmult frame_of_axis line_scene line_prims
      (Z * Z)%type pair (fun _ _ => 4096) 16 (mkRange 0 7) ∅ = Some lf /\
    decode_count (4096 + 121) (leaf_memory _ lf) = Some 3 /\
    decode_primID (4096 + 121) 3 1 (leaf_memory _ lf) = Some 5.
Proof.
  destruct (createLeaf_round_trip (basis := BezierBasis) 4 Rmult frame_of_axis line_scene
              line_prims (Z * Z)%type pair (fun _ _ => 4096) 16
              ltac:(lia) ltac:(cbn; lia) (mkRange 0 7) ∅
              ltac:(cbn; lia) ltac:(cbn; lia) ltac:(vm_compute; reflexivity))
    as (lf & Hc & Hj).
  - unfold line_prims, wf_PrimRef, is_u32. repeat constructor; cbn; lia.
  - assert (Hacc : leaf_accel _ lf = 4096).
    { unfold createLeaf in Hc. destruct (fill_blocks _ _ _ _ _ _ _ _ _ _ _) as [[[? ?] ?]|];
        [| discriminate]. injection Hc as <-. reflexivity. }
    exists lf. split; [exact Hc |].
    destruct (Hj 5 ltac:(cbn; lia)) as (p & p0 & Hp & _ & _ & Hcnt & _ & Hpid).
    rewrite Hacc in Hcnt, Hpid.
    cbn in Hp. injection Hp as <-.
    split; [exact Hcnt | exact Hpid].
Defined.

(** ** The shared offset and scale of a block *)

Section BlockBounds.
Local Open Scope R_scope.

Variable scene : Scene.

Lemma bbox_contains_refl b : bbox_contains b b.
Proof. intros c. lra. Qed.

Lemma bbox_contains_trans a b c :
  bbox_contains a b -> bbox_contains b c -> bbox_contains a c.
Proof. intros H1 H2 k. specialize (H1 k). specialize (H2 k). lra. Qed.

Lemma bbox_extend_contains a b :
  exists u, bbox_extend (Some a) b = Some u /\
            bbox_contains u a /\ bbox_contains u b /\
            forall box, bbox_contains box a -> bbox_contains box b -> bbox_contains box u.
Proof.
  eexists. split; [reflexivity |]. split; [| split].
  - intros c. destruct c; cbn [component lower upper vmin vmax x y z];
      split; (apply Rmin_l || apply Rmax_l).
  - intros c. destruct c; cbn [component lower upper vmin vmax x y z];
      split; (apply Rmin_r || apply Rmax_r).
  - intros box Ha Hb c. specialize (Ha c). specialize (Hb c).
    destruct c; cbn [component lower upper vmin vmax x y z] in *;
      split; (apply Rmin_glb || apply Rmax_lub); lra.
Qed.

(** The accumulator of the first loop of [fill], once it holds a box. *)
Lemma fold_extend_contains ps : forall a,
  exists u,
    fold_left (fun acc p => bbox_extend acc (world_bounds scene p)) ps (Some a) = Some u /\
    bbox_contains u a /\
    (forall p, p ∈ ps -> bbox_contains u (world_bounds scene p)) /\
    forall box, bbox_contains box a ->
                (forall p, p ∈ ps -> bbox_contains box (world_bounds scene p)) ->
                bbox_contains box u.
Proof.
  induction ps as [|q ps IH]; intros a.
  - exists a. split; [reflexivity |]. split; [apply bbox_contains_refl |].
    split; [intros p Hp; apply elem_of_nil in Hp; contradiction | intros box Ha _; exact Ha].
  - cbn [fold_left].
    destruct (bbox_extend_contains a (world_bounds scene q)) as (v & Hv & Hva & Hvq & Hleast).
    rewrite Hv. destruct (IH v) as (u & Hu & Huv & Hups & Huleast).
    exists u. split; [exact Hu |]. split; [eapply bbox_contains_trans; eassumption |].
    split.
    + intros p Hp. apply elem_of_cons in Hp as [->|Hp].
      * eapply bbox_contains_trans; eassumption.
      * apply Hups. exact Hp.
    + intros box Ha Hall. apply Huleast.
      * apply Hleast; [exact Ha |]. apply Hall. apply elem_of_cons. left. reflexivity.
      * intros p Hp. apply Hall. apply elem_of_cons. right. exact Hp.
Qed.

End BlockBounds.

(** The box the first loop of [fill] returns. *)
Lemma bounds_loop_least (scene : Scene) (prims : list PrimRef) (begin : Z) (n : nat) :
  0 <= begin -> begin + Z.of_nat n <= Z.of_nat (length prims) ->
  Z.of_nat (length prims) < 2 ^ 64 ->
  let ps := slice prims begin (Z.of_nat n) in
  (n = O -> bounds_loop scene prims begin 0 n None = Some None) /\
  (n <> O ->
   exists bb,
     bounds_loop scene prims begin 0 n None = Some (Some bb) /\
     (forall p, p ∈ ps -> bbox_contains bb (world_bounds scene p)) /\
     forall box, (forall p, p ∈ ps -> bbox_contains box (world_bounds scene p)) ->
                 bbox_contains box bb).
Proof.
  intros Hb Hl Hlen ps. split.
  - intros ->. reflexivity.
  - intros Hn.
    assert (Hloop : forall m i acc, 0 <= i ->
              begin + i + Z.of_nat m <= Z.of_nat (length prims) ->
              bounds_loop scene prims begin i m acc
              = Some (fold_left (fun acc p => bbox_extend acc (world_bounds scene p))
                        (slice prims (begin + i) (Z.of_nat m)) acc)).
    { induction m as [|m IH]; intros i acc Hi Hm; [reflexivity |].
      cbn [bounds_loop]. rewrite wrap64_small by lia.
      destruct (prims_lookup prims (begin + i)) as [p Hp]; [lia |].
      rewrite Hp, IH by lia.
      rewrite (slice_cons prims (begin + i) (Z.of_nat (S m)) p) by (auto; lia).
      cbn [fold_left]. unfold world_bounds.
      replace (begin + (i + 1)) with (begin + i + 1) by lia.
      replace (Z.of_nat (S m) - 1) with (Z.of_nat m) by lia. reflexivity. }
    rewrite Hloop by lia. replace (begin + 0) with begin by lia. fold ps.
    destruct ps as [|q qs] eqn:Eps.
    { exfalso. assert (Hlen0 : Z.of_nat (length ps) = Z.of_nat n)
        by (apply slice_length; lia).
      rewrite Eps in Hlen0. cbn in Hlen0. lia. }
    cbn [fold_left bbox_extend].
    destruct (fold_extend_contains scene qs (world_bounds scene q))
      as (u & Hu & Hua & Hups & Hleast).
    exists u. split; [f_equal; exact Hu |]. split.
    + intros p Hp. apply elem_of_cons in Hp as [->|Hp]; [exact Hua | apply Hups; exact Hp].
    + intros box Hall. apply Hleast.
      * apply Hall. apply elem_of_cons. left. reflexivity.
      * intros p Hp. apply Hall. apply elem_of_cons. right. exact Hp.
Qed.

(** X9: the first loop of [fill] returns the union of the world bounds
    of the primitives it visits: a box that contains each of them and is
    contained in every box that does; it returns no box only when it
    visits no primitive. *)
Theorem bounds_loop_union (scene : Scene) (prims : list PrimRef) (begin : Z) (n : nat) :
  0 <= begin -> begin + Z.of_nat n <= Z.of_nat (length prims) ->
  Z.of_nat (length prims) < 2 ^ 64 ->
  let ps := slice prims begin (Z.of_nat n) in
  (n = O -> bounds_loop scene prims begin 0 n None = Some None) /\
  (n <> O ->
   exists bb,
     bounds_loop scene prims begin 0 n None = Some (Some bb) /\
     (forall p, p ∈ ps -> bbox_contains bb (world_bounds scene p)) /\
     forall box, (forall p, p ∈ ps -> bbox_contains box (world_bounds scene p)) ->
                 bbox_contains box bb).
Proof. apply bounds_loop_least. Qed.

Lemma bounds_loop_union_witness :
  exists bb,
    bounds_loop line_scene line_prims 0 0 4 None = Some (Some bb) /\
    bbox_contains bb (world_bounds line_scene (mkPrimRef 0 2)).
Proof.
  destruct (bounds_loop_union line_scene line_prims 0 4 ltac:(lia) ltac:(cbn; lia)
              ltac:(cbn; lia)) as [_ H].
  destruct (H ltac:(discriminate)) as (bb & Hl & Hc & _).
  exists bb. split; [exact Hl |]. apply Hc. cbn.
  apply elem_of_cons. right. apply elem_of_cons. right. apply elem_of_cons. left. reflexivity.
Defined.

Lemma header_decodes_offset this N g o s (m : memory) :
  Forall (holds m) (header_image this N g o s) ->
  decode_offset this N m = Some o.
Proof.
  intros H. unfold header_image in H.
  repeat match goal with
         | H : Forall _ (_ :: _) |- _ => apply Forall_cons in H; destruct H as [? H]
         end.
  unfold decode_offset.
  rewrite (holds_load_float _ (x o)), (holds_load_float _ (y o)),
    (holds_load_float _ (z o)) by assumption.
  destruct o; reflexivity.
Qed.

(** X8: the offset [fill] stores reads back as the lower corner of the
    union of the world bounds of the primitives of the block, as its
    first loop computes it; on every axis it is at most the lower world
    bound of each primitive of the block. *)
Theorem fill_offset_lower_corner {basis : CurveBasis} (M : Z) (mulf : R -> R -> R)
    (frame : Vec3fa -> LinearSpace3fa) (scene : Scene) (prims : list PrimRef)
    (this begin _end : Z) (m : memory) :
  1 <= M <= 255 ->
  Z.of_nat (length prims) + M < 2 ^ 64 ->
  0 <= begin < _end -> _end <= Z.of_nat (length prims) ->
  let N := Z.min M (_end - begin) in
  exists m' bb,
    fill M mulf frame scene prims this begin _end m = Some (m', begin + N) /\
    bounds_loop scene prims begin 0 (Z.to_nat N) None = Some (Some bb) /\
    decode_offset this N m' = Some (lower bb) /\
    forall i p c, 0 <= i < N -> prims !! Z.to_nat (begin + i) = Some p ->
      (component c (lower bb) <= component c (lower (world_bounds scene p)))%R.
Proof.
  intros HM Hlen Hb He N.
  destruct (fill_holds M mulf frame scene prims HM Hlen this begin _end m Hb He)
    as (m' & p0 & bb & Hp0 & Hbb & Hfill & Hhdr & _).
  fold N in Hbb, Hfill, Hhdr.
  assert (Hbl : bounds_loop scene prims begin 0 (Z.to_nat N) None = Some (Some bb)).
  { rewrite (bounds_loop_slice M scene prims HM Hlen) by (unfold N; lia).
    rewrite Z2Nat.id by (unfold N; lia). replace (begin + 0) with begin by lia.
    f_equal. exact Hbb. }
  exists m', bb. split; [exact Hfill |]. split; [exact Hbl |]. split.
  - apply (header_decodes_offset this N (geomID p0) (lower bb) (block_scale bb)).
    exact Hhdr.
  - intros i p c Hi Hp.
    destruct (bounds_loop_least scene prims begin (Z.to_nat N) ltac:(lia)
                ltac:(unfold N; lia) ltac:(lia)) as [_ Hne].
    destruct (Hne ltac:(unfold N; lia)) as (bb' & Hbl' & Hin & _).
    rewrite Hbl in Hbl'. injection Hbl' as <-.
    assert (Hel : p ∈ slice prims begin (Z.of_nat (Z.to_nat N))).
    { rewrite Z2Nat.id by (unfold N; lia).
      apply (list_elem_of_lookup_2 _ (Z.to_nat i)).
      rewrite (slice_lookup prims begin N i) by lia. exact Hp. }
    apply (Hin p Hel c).
Qed.

Lemma fill_offset_lower_corner_witness :
  exists m' bb,
    fill (basis := BezierBasis) 4 Rmult frame_of_axis line_scene line_prims 4096 4 7 ∅
      = Some (m', 7) /\
    decode_offset 4096 3 m' = Some (lower bb) /\
    (x (lower bb) <= 20)%R.
Proof.
  destruct (fill_offset_lower_corner (basis := BezierBasis) 4 Rmult frame_of_axis
              line_scene line_prims 4096 4 7 ∅ ltac:(lia) ltac:(cbn; lia) ltac:(lia)
              ltac:(cbn; lia))
    as (m' & bb & Hf & _ & Ho & Hle).
  exists m', bb. split; [exact Hf |]. split; [exact Ho |].
  exact (Hle 1 (mkPrimRef 0 5) AxisX ltac:(lia) eq_refl).
Defined.

(** ** How far the stored values are from the true ones *)

Section QuantizationError.
Local Open Scope R_scope.

Lemma quantize_lower_tight l :
  -32767 <= l -> l < 32768 -> l - 1 < IZR (quantize_lower l) <= l.
Proof.
  intros H1 H2. rewrite quantize_lower_eq.
  pose proof (Zfloor_bounds l) as [Hf1 Hf2].
  pose proof (Zfloor_le l (-32767) H1) as Hge.
  assert (Hle : (Zfloor l < 32768)%Z) by (apply lt_IZR; lra).
  rewrite Z.min_l, Z.max_l by lia. lra.
Qed.

Lemma quantize_upper_tight u :
  -32768 < u -> u <= 32767 -> u <= IZR (quantize_upper u) < u + 1.
Proof.
  intros H1 H2. rewrite quantize_upper_eq.
  pose proof (Zceil_bounds u) as [Hc1 Hc2].
  pose proof (Zceil_ge u 32767 H2) as Hle.
  assert (Hge : (-32768 < Zceil u)%Z) by (apply lt_IZR; lra).
  rewrite Z.min_l, Z.max_l by lia. lra.
Qed.

Lemma quantize_ordered l u : l <= u -> (quantize_lower l <= quantize_upper u)%Z.
Proof.
  intros H. rewrite quantize_lower_eq, quantize_upper_eq.
  pose proof (Zfloor_bounds l) as [Hf _]. pose proof (Zceil_bounds u) as [_ Hc].
  assert (Zfloor l <= Zceil u)%Z by (apply le_IZR; lra).
  lia.
Qed.

Lemma quantize_window l u :
  (-32767 <= quantize_lower l <= 32767)%Z /\ (-32767 <= quantize_upper u <= 32767)%Z.
Proof. rewrite quantize_lower_eq, quantize_upper_eq. lia. Qed.


End QuantizationError.

(** X11: the bounds [fill] stores for a primitive always lie in
    [[-32767, 32767]] and keep their order (stored lower <= stored upper
    when lower <= upper); while the true bound is inside the window they
    are within one unit of it: [l - 1 < stored lower <= l] and
    [u <= stored upper < u + 1]. *)
Theorem fill_bounds_tight {basis : CurveBasis} (M : Z) (mulf : R -> R -> R)
    (frame : Vec3fa -> LinearSpace3fa) (scene : Scene) (prims : list PrimRef)
    (this begin _end : Z) (m : memory) :
  1 <= M <= 255 ->
  Z.of_nat (length prims) + M < 2 ^ 64 ->
  0 <= begin < _end -> _end <= Z.of_nat (length prims) ->
  let N := Z.min M (_end - begin) in
  exists m' bb,
    fill M mulf frame scene prims this begin _end m = Some (m', begin + N) /\
    bounds_loop scene prims begin 0 (Z.to_nat N) None = Some (Some bb) /\
    forall i p a, 0 <= i < N -> prims !! Z.to_nat (begin + i) = Some p ->
      let box := prim_box mulf frame scene (lower bb) (block_scale bb) p in
      let l := component a (lower box) in
      let u := component a (upper box) in
      exists ql qu,
        decode_lower a this N i m' = Some ql /\
        decode_upper a this N i m' = Some qu /\
        -32767 <= ql <= 32767 /\ -32767 <= qu <= 32767 /\
        ((l <= u)%R -> ql <= qu) /\
        ((-32767 <= l)%R -> (l < 32768)%R -> (l - 1 < IZR ql <= l)%R) /\
        ((-32768 < u)%R -> (u <= 32767)%R -> (u <= IZR qu < u + 1)%R).
Proof.
  intros HM Hlen Hb He N.
  destruct (fill_decodes M mulf frame scene prims this begin _end m HM Hlen Hb He)
    as (m' & bb & Hfill & Hbb & Hslots).
  fold N in Hfill, Hbb, Hslots.
  exists m', bb. split; [exact Hfill |]. split.
  { rewrite (bounds_loop_slice M scene prims HM Hlen) by (unfold N; lia).
    rewrite Z2Nat.id by (unfold N; lia). replace (begin + 0) with begin by lia.
    f_equal. exact Hbb. }
  intros i p a Hi Hp box l u.
  destruct (Hslots i p Hi Hp) as (_ & _ & Hlo & Hup).
  exists (quantize_lower l), (quantize_upper u).
  split; [apply Hlo |]. split; [apply Hup |].
  split; [apply (quantize_window l u) |]. split; [apply (quantize_window l u) |].
  split; [apply quantize_ordered |].
  split; [apply quantize_lower_tight | apply quantize_upper_tight].
Qed.

Lemma fill_bounds_tight_witness :
  exists m' ql qu,
    fill (basis := BezierBasis) 4 Rmult frame_of_axis line_scene line_prims 4096 0 7 ∅
      = Some (m', 4) /\
    decode_lower AxisY 4096 4 3 m' = Some ql /\
    decode_upper AxisY 4096 4 3 m' = Some qu /\
    ql <= qu /\ (1 <= IZR qu < 2)%R.
Proof.
  destruct (fill_bounds_tight (basis := BezierBasis) 4 Rmult frame_of_axis line_scene
              line_prims 4096 0 7 ∅ ltac:(lia) ltac:(cbn; lia) ltac:(lia) ltac:(cbn; lia))
    as (m' & bb & Hf & _ & Hs).
  destruct (Hs 3 (mkPrimRef 0 3) AxisY ltac:(lia) eq_refl)
    as (ql & qu & Hl & Hu & _ & _ & Hord & _ & Hup).
  exists m', ql, qu. split; [exact Hf |]. split; [exact Hl |]. split; [exact Hu |].
  split; [apply Hord; cbn; lra |].
  cbn in Hup. specialize (Hup ltac:(lra) ltac:(lra)). lra.
Defined.

(** The single-precision product of the stored example: for the
    component [16644063 * 2^-24], whose product by 126 rounds to 125, the
    result is within [2^-24] of the exact product, relatively, and of
    magnitude at most 126. *)
Lemma binary32_product_error :
  let c := Binary32.to_R Binary32.c_near_125 in
  let r := Binary32.to_R (Binary32.mul Binary32.f126 Binary32.c_near_125) in
  (r = 125 /\ Rabs (r - 126 * c) <= 126 * Rabs c / 2 ^ 24 /\ Rabs r <= 126)%R.
Proof.
  assert (Hc : Binary32.to_R Binary32.c_near_125 = (16644063 / 16777216)%R).
  { unfold Binary32.to_R, Binary32.c_near_125. cbn [Z.opp Z.leb Z.compare].
    change (2 ^ 24)%Z with 16777216%Z. reflexivity. }
  assert (Hr : Binary32.to_R (Binary32.mul Binary32.f126 Binary32.c_near_125) = 125%R).
  { assert (Hm : Binary32.mul Binary32.f126 Binary32.c_near_125
                 = S754_finite false 16384000 (-17)) by (vm_compute; reflexivity).
    rewrite Hm. unfold Binary32.to_R. cbn [Z.opp Z.leb Z.compare].
    change (2 ^ (- (-17)))%Z with 131072%Z. lra. }
  cbv zeta. rewrite Hc, Hr.
  replace (2 ^ 24)%R with 16777216%R by (rewrite pow_IZR; reflexivity).
  split; [reflexivity |]. split.
  - rewrite (Rabs_pos_eq (16644063 / 16777216)) by lra.
    apply Rabs_le. lra.
  - rewrite Rabs_pos_eq; lra.
Qed.



(** ** More on the aligned-space solver *)

Section FrameOfAxis.
Local Open Scope R_scope.

Lemma identity_frame_orthonormal : orthonormal identity_frame /\ right_handed identity_frame.
Proof.
  split.
  - unfold orthonormal, identity_frame, dot. cbn. repeat split; ring.
  - unfold right_handed, identity_frame. cbn [vx vy vz].
    repeat split; apply vec3_eq; unfold cross; cbn; ring.
Qed.

(** A unit axis [N] with a unit vector [d] orthogonal to it. *)
Lemma completed_frame_orthonormal N d :
  dot N N = 1 -> dot d d = 1 -> dot N d = 0 ->
  orthonormal (LinearSpace3 d (normalize (cross N d)) N) /\
  right_handed (LinearSpace3 d (normalize (cross N d)) N).
Proof.
  intros HN Hd HNd.
  assert (Hc : dot (cross N d) (cross N d) = 1).
  { rewrite dot_cross_cross, HN, Hd, HNd. ring. }
  rewrite (normalize_of_unit _ Hc). split.
  - unfold orthonormal. cbn [vx vy vz]. repeat split; try assumption.
    + apply dot_cross_r.
    + rewrite <- (dot_cross_l N d). unfold dot. ring.
  - unfold right_handed. cbn [vx vy vz]. split; [| split].
    + rewrite cross_cross_r, Hd, HNd. apply vec3_eq; unfold vsub, vscale; cbn; ring.
    + rewrite cross_cross_l, HN, HNd. apply vec3_eq; unfold vsub, vscale; cbn; ring.
    + reflexivity.
Qed.

Lemma frame_of_axis_orthonormal : frame_orthonormal frame_of_axis.
Proof.
  intros N HN. unfold frame_of_axis.
  set (dx0 := cross (Vec3 1 0 0) N). set (dx1 := cross (Vec3 0 1 0) N).
  set (d := if Rgt_dec (dot dx0 dx0) (dot dx1 dx1) then dx0 else dx1).
  assert (H0 : dot dx0 dx0 = z N * z N + y N * y N)
    by (unfold dot, dx0, cross; cbn; ring).
  assert (H1 : dot dx1 dx1 = z N * z N + x N * x N)
    by (unfold dot, dx1, cross; cbn; ring).
  assert (HNe : x N * x N + y N * y N + z N * z N = 1) by (unfold dot in HN; exact HN).
  assert (Hd : 0 < dot d d /\ dot N d = 0).
  { unfold d. destruct (Rgt_dec _ _) as [Hgt|Hle].
    - split; [rewrite H0 in *; rewrite H1 in Hgt; nra | unfold dot, dx0, cross; cbn; ring].
    - split; [rewrite H1; rewrite H0, H1 in Hle; nra | unfold dot, dx1, cross; cbn; ring]. }
  destruct Hd as [Hd0 HdN].
  apply completed_frame_orthonormal.
  - exact HN.
  - apply normalize_unit. exact Hd0.
  - unfold normalize. replace (dot N (vscale d (/ sqrt (dot d d))))
      with (/ sqrt (dot d d) * dot N d) by (unfold dot, vscale; cbn; ring).
    rewrite HdN. ring.
Qed.

End FrameOfAxis.

Section SolverFrames.

Context {basis : CurveBasis}.
Variable frame : Vec3fa -> LinearSpace3fa.
Variable scene : Scene.
Variable offset : Vec3fa.
Variable scale : R.

(** The tangent of a primitive with a valid direction is a unit vector. *)
Lemma tangent_unit q :
  valid_direction scene offset scale q ->
  dot (normalize (chord scene offset scale q)) (normalize (chord scene offset scale q)) = 1%R.
Proof.
  intros Hv. apply normalize_unit. pose proof eps18_bounds as [[He _] [Hef _]].
  unfold valid_direction, sqr_length in Hv. lra.
Qed.

(** The frame built from the loop variables of a primitive with a valid
    direction. *)
Lemma solver_finish_of q :
  valid_direction scene offset scale q ->
  let tangent := normalize (chord scene offset scale q) in
  let secondary := cross tangent (start_derivative scene offset scale q) in
  ((sqr_length secondary > eps18)%R ->
   solver_finish frame (solver_of scene offset scale q)
   = LinearSpace3 (normalize (cross (normalize secondary) tangent))
                  (normalize secondary) tangent /\
   orthonormal (solver_finish frame (solver_of scene offset scale q)) /\
   right_handed (solver_finish frame (solver_of scene offset scale q))) /\
  (~ (sqr_length secondary > eps18)%R ->
   solver_finish frame (solver_of scene offset scale q) = frame tangent).
Proof.
  intros Hv tangent secondary.
  unfold solver_finish, solver_of. cbn [axisy axisz]. fold tangent. fold secondary.
  split; intros Hs; destruct (Rgt_dec _ _) as [Hgt|Hn]; try contradiction.
  - split; [reflexivity |].
    pose proof eps18_bounds as [[He _] [Hef _]].
    apply (aligned_frame_orthonormal tangent secondary).
    + apply tangent_unit. exact Hv.
    + apply dot_cross_l.
    + unfold sqr_length in Hs. lra.
  - reflexivity.
Qed.

End SolverFrames.


Section LineScene.
Local Open Scope R_scope.




End LineScene.


(** X14: on every range inside the array the solver returns a
    right-handed orthonormal frame, in exact arithmetic, as soon as the
    single-vector construction [frame] does around unit axes: the
    identity when no primitive qualifies, the frame of the defining
    primitive otherwise. *)
Theorem solver_orthonormal {basis : CurveBasis}
    (frame : Vec3fa -> LinearSpace3fa) (scene : Scene) (prims : list PrimRef)
    (set : range) (offset : Vec3fa) (scale : R) :
  0 <= r_begin set <= r_end set -> r_end set <= Z.of_nat (length prims) ->
  frame_orthonormal frame ->
  exists space,
    computeAlignedSpace frame scene prims set offset scale = Some space /\
    orthonormal space /\ right_handed space.
Proof.
  intros Hb He Hframe.
  destruct (computeAlignedSpace_tracks scene offset scale frame prims set Hb He)
    as (st & _ & Htr & Hres).
  exists (solver_finish frame st). split; [exact Hres |].
  destruct Htr as [[-> _] | (q & _ & [_ Hv] & -> & _)].
  - rewrite solver_finish_init. apply identity_frame_orthonormal.
  - destruct (solver_finish_of frame scene offset scale q Hv) as [Hnd Hdeg].
    destruct (Rgt_dec
                (sqr_length (cross (normalize (chord scene offset scale q))
                               (start_derivative scene offset scale q))) eps18) as [Hgt|Hle].
    + destruct (Hnd Hgt) as (_ & Ho & Hr). split; assumption.
    + rewrite (Hdeg Hle). apply Hframe. apply tangent_unit. exact Hv.
Qed.

Lemma solver_orthonormal_witness :
  exists space,
    computeAlignedSpace (basis := BezierBasis) frame_of_axis line_scene line_prims
      (mkRange 2 6) zero3 1 = Some space /\
    orthonormal space /\ right_handed space.
Proof.
  apply (solver_orthonormal (basis := BezierBasis) frame_of_axis line_scene line_prims
           (mkRange 2 6) zero3 1); [cbn; lia | cbn; lia | apply frame_of_axis_orthonormal].
Defined.


